(** * discopy.rigid: the free rigid category

    A shallow embedding of [discopy/rigid.py]: rigid objects with winding
    numbers, rigid types, boxes with cups and caps, layered diagrams, the
    nested cup and cap generator, transposition, currying, explicit cup
    insertion and the action of a rigid functor on objects.

    Python exceptions are values of [exn]; a call that may raise returns a
    [result].  Python integers are [Z], tuples are lists. *)

From Stdlib Require Import List ZArith String Bool Lia.
From Equations Require Import Equations.
From Stdlib Require Import DecimalString.
Import ListNotations.
Local Open Scope Z_scope.

(** ** Objects and types *)

(** [class Ob]: a name and a winding number [z]. *)
Record Ob : Type := mkOb { Ob_name : string; Ob_z : Z }.

(** [Ob.l]: [Ob(self.name, self.z - 1)]. *)
Definition Ob_l (x : Ob) : Ob := mkOb (Ob_name x) (Ob_z x - 1).

(** [Ob.r]: [Ob(self.name, self.z + 1)]. *)
Definition Ob_r (x : Ob) : Ob := mkOb (Ob_name x) (Ob_z x + 1).

(** [Ob.__eq__] between two rigid objects:
    [(self.name, self.z) == (other.name, other.z)]. *)
Definition Ob_eqb (x y : Ob) : bool :=
  String.eqb (Ob_name x) (Ob_name y) && Z.eqb (Ob_z x) (Ob_z y).

(** [class Ty]: the tuple [inside] of the objects of the type. *)
Definition Ty : Type := list Ob.

(** [Ty.l]: the objects [x.l for x in self.inside[::-1]]. *)
Definition Ty_l (t : Ty) : Ty := map Ob_l (rev t).

(** [Ty.r]: the objects [x.r for x in self.inside[::-1]]. *)
Definition Ty_r (t : Ty) : Ty := map Ob_r (rev t).

(** Equality of types is equality of their tuples of objects. *)
Fixpoint Ty_eqb (s t : Ty) : bool :=
  match s, t with
  | [], [] => true
  | x :: s', y :: t' => Ob_eqb x y && Ty_eqb s' t'
  | _, _ => false
  end.

(** [len(t)] as a Python integer. *)
Definition len {A : Type} (l : list A) : Z := Z.of_nat (List.length l).

(** Truth value of a type, [if head.dom:], is [len(head.dom) != 0]. *)
Definition truthy (t : Ty) : bool := negb (len t =? 0).

(** ** Exceptions *)

(** The messages of the exceptions raised in [rigid.py]. *)
Inductive Message : Type :=
| are_not_adjoints (left right : Ty)
| cup_vs_cups (left right : Ty)
| cap_vs_caps (left right : Ty)
| no_winding_number_for_complex_types
| indices_out_of_range (x y : Z)
| rigid_no_dagger
| rigid_cup_no_dagger
| rigid_cap_no_dagger
| does_not_compose (cod dom : Ty).

Inductive exn : Type :=
| TypeError (msg : Message)
| ValueError (msg : Message)
| AxiomError (msg : Message)
| IndexError
| NameError (name : string).

Inductive result (A : Type) : Type :=
| Ok (a : A)
| Raise (e : exn).
Arguments Ok {A} a.
Arguments Raise {A} e.

Definition bind {A B : Type} (m : result A) (k : A -> result B) : result B :=
  match m with
  | Ok a => k a
  | Raise e => Raise e
  end.

Notation "x <- m ;; k" := (bind m (fun x => k))
  (at level 61, m at next level, right associativity).

Fixpoint mapM {A B : Type} (f : A -> result B) (l : list A) : result (list B) :=
  match l with
  | [] => Ok []
  | a :: l' => b <- f a ;; bs <- mapM f l' ;; Ok (b :: bs)
  end.

(** ** Python indexing of tuples *)

(** A slice bound [i] of a sequence of length [n], clamped as Python does:
    a negative bound counts from the end. *)
Definition clamp (n i : Z) : Z :=
  if i <? 0 then Z.max 0 (i + n) else Z.min i n.

(** [t[start:stop]], an absent bound being [None]. *)
Definition slice {A : Type} (start stop : option Z) (t : list A) : list A :=
  let n := len t in
  let lo := match start with None => 0 | Some i => clamp n i end in
  let hi := match stop with None => n | Some j => clamp n j end in
  firstn (Z.to_nat (hi - lo)) (skipn (Z.to_nat lo) t).

(** [t[i]] for an integer [i]: the type of length one holding the object at
    position [i], as [nesting] needs it to call [factory(x[0], y[-1])], which
    refuses anything but a [Ty] of length one.  Out of range is an
    [IndexError], as for the underlying tuple. *)
Definition item (t : Ty) (i : Z) : result Ty :=
  let j := if i <? 0 then i + len t else i in
  if (j <? 0) || (len t <=? j) then Raise IndexError
  else match nth_error t (Z.to_nat j) with
       | Some x => Ok [x]
       | None => Raise IndexError
       end.


(** [range(a, b)]. *)
Definition range (a b : Z) : list Z :=
  map (fun k => a + Z.of_nat k) (seq 0 (Z.to_nat (b - a))).

(** ** Boxes, cups and caps *)

(** [class Box] with its subclasses [Cup] and [Cap].  A cup or a cap is
    determined by its [left] and [right]; its winding [_z] is [0]. *)
Inductive Box : Type :=
| MkBox (name : string) (dom cod : Ty) (data : option string) (z : Z)
| MkCup (left right : Ty)
| MkCap (left right : Ty).

Definition Box_dom (b : Box) : Ty :=
  match b with
  | MkBox _ d _ _ _ => d
  | MkCup l r => l ++ r
  | MkCap _ _ => []
  end.

Definition Box_cod (b : Box) : Ty :=
  match b with
  | MkBox _ _ c _ _ => c
  | MkCup _ _ => []
  | MkCap l r => l ++ r
  end.

Definition Box_z (b : Box) : Z :=
  match b with
  | MkBox _ _ _ _ z => z
  | _ => 0
  end.

(** [Cup.__init__]: both types have length one ([ValueError] otherwise) and
    are adjoint in one direction at least ([AxiomError] otherwise). *)
Definition Cup (left right : Ty) : result Box :=
  if negb (len left =? 1) || negb (len right =? 1)
  then Raise (ValueError (cup_vs_cups left right))
  else if negb (Ty_eqb (Ty_r left) right) && negb (Ty_eqb left (Ty_r right))
  then Raise (AxiomError (are_not_adjoints left right))
  else Ok (MkCup left right).

(** [Cap.__init__]. *)
Definition Cap (left right : Ty) : result Box :=
  if negb (len left =? 1) || negb (len right =? 1)
  then Raise (ValueError (cap_vs_caps left right))
  else if negb (Ty_eqb left (Ty_r right)) && negb (Ty_eqb (Ty_r left) right)
  then Raise (AxiomError (are_not_adjoints left right))
  else Ok (MkCap left right).

(** The adjointness test of [Cup.__init__] and [Cap.__init__], on the
    objects of two types of length one. *)
Definition adjoints (a b : Ob) : Prop := Ob_r a = b \/ a = Ob_r b.

(** [Box.l], [Cup.l] and [Cap.l]: a cup or cap is built anew by its
    constructor, on the adjoints of its types in reverse order. *)
Definition Box_l (b : Box) : result Box :=
  match b with
  | MkBox name dom cod data z => Ok (MkBox name (Ty_l dom) (Ty_l cod) data (z - 1))
  | MkCup l r => Cup (Ty_l r) (Ty_l l)
  | MkCap l r => Cap (Ty_l r) (Ty_l l)
  end.

(** [Box.r], [Cup.r] and [Cap.r]. *)
Definition Box_r (b : Box) : result Box :=
  match b with
  | MkBox name dom cod data z => Ok (MkBox name (Ty_r dom) (Ty_r cod) data (z + 1))
  | MkCup l r => Cup (Ty_r r) (Ty_r l)
  | MkCap l r => Cap (Ty_r r) (Ty_r l)
  end.

(** [Box.dagger], [Cup.dagger] and [Cap.dagger]: each raises. *)
Definition dagger (b : Box) : result Box :=
  match b with
  | MkBox _ _ _ _ _ => Raise (AxiomError rigid_no_dagger)
  | MkCup _ _ => Raise (AxiomError rigid_cup_no_dagger)
  | MkCap _ _ => Raise (AxiomError rigid_cap_no_dagger)
  end.

(** The boxes the constructors can return: a cup or cap passed its checks. *)
Definition wf_box (b : Box) : bool :=
  match b with
  | MkBox _ _ _ _ _ => true
  | MkCup l r => match Cup l r with Ok _ => true | Raise _ => false end
  | MkCap l r => match Cap l r with Ok _ => true | Raise _ => false end
  end.

(** ** Layers and diagrams *)

(** [class Layer]: the box with the types on its left and on its right. *)
Record Layer : Type := mkLayer
  { Layer_left : Ty; Layer_box : Box; Layer_right : Ty }.

(** [Layer.l]: [Layer(self.right.l, self.box.l, self.left.l)]. *)
Definition Layer_l (x : Layer) : result Layer :=
  b <- Box_l (Layer_box x) ;;
  Ok (mkLayer (Ty_l (Layer_right x)) b (Ty_l (Layer_left x))).

(** [Layer.r]. *)
Definition Layer_r (x : Layer) : result Layer :=
  b <- Box_r (Layer_box x) ;;
  Ok (mkLayer (Ty_r (Layer_right x)) b (Ty_r (Layer_left x))).

(** [class Diagram]: the layers with the domain and the codomain. *)
Record Diagram : Type := mkDiagram
  { inside : list Layer; dom : Ty; cod : Ty }.

(** [class Id]: [Diagram((), dom, dom)]. *)
Definition Id (t : Ty) : Diagram := mkDiagram [] t t.

(** A box seen as the diagram of its single layer. *)
Definition of_box (b : Box) : Diagram :=
  mkDiagram [mkLayer [] b []] (Box_dom b) (Box_cod b).

(** Modelled from the spec: [monoidal.Diagram.then], written [>>], is not in
    the sources at hand.  Sequential composition is defined iff
    [f.cod == g.dom]; the layers of the result are those of [f] followed by
    those of [g]; otherwise it fails with a composition-mismatch error. *)
Definition compose (f g : Diagram) : result Diagram :=
  if Ty_eqb (cod f) (dom g)
  then Ok (mkDiagram (inside f ++ inside g) (dom f) (cod g))
  else Raise (AxiomError (does_not_compose (cod f) (dom g))).

(** A layer with [l] more wires on its left and [r] more on its right. *)
Definition whisker (l r : Ty) (x : Layer) : Layer :=
  mkLayer (l ++ Layer_left x) (Layer_box x) (Layer_right x ++ r).

(** Modelled from the spec: [monoidal.Diagram.tensor], written [@], is not
    in the sources at hand.  Every layer of [f] gets the domain of [g] on
    its right, every layer of [g] gets the codomain of [f] on its left;
    [dom = f.dom ++ g.dom] and [cod = f.cod ++ g.cod]. *)
Definition tensor (f g : Diagram) : Diagram :=
  mkDiagram
    (map (whisker [] (dom g)) (inside f) ++ map (whisker (cod f) []) (inside g))
    (dom f ++ dom g) (cod f ++ cod g).

Notation "f >> g" := (compose f g) (at level 55, left associativity).
Notation "f @@ g" := (tensor f g) (at level 50, left associativity).

(** [Diagram._conjugate]: the adjoint of every layer, in the same order. *)
Definition conjugate (self : Diagram) (use_left : bool) : result Diagram :=
  ls <- mapM (fun x => if use_left then Layer_l x else Layer_r x) (inside self) ;;
  Ok (mkDiagram ls
        (if use_left then Ty_l (dom self) else Ty_r (dom self))
        (if use_left then Ty_l (cod self) else Ty_r (cod self))).

(** [Diagram.l] and [Diagram.r]. *)
Definition Diagram_l (self : Diagram) : result Diagram := conjugate self true.
Definition Diagram_r (self : Diagram) : result Diagram := conjugate self false.

Definition wf_diagram (d : Diagram) : bool :=
  forallb (fun x => wf_box (Layer_box x)) (inside d).

(** ** Nested cups and caps *)

(** [nesting(factory)]: the [method] it returns.  [x[1:]] is the tail of
    [x]; a type written where a diagram is expected stands for its
    identity. *)
Fixpoint nesting (factory : Ty -> Ty -> result Box) (x y : Ty) : result Diagram :=
  match x with
  | [] => Ok (Id (slice None (Some 0) x))
  | _ :: x' =>
      match x' with
      | [] => b <- factory x y ;; Ok (of_box b)
      | _ :: _ =>
          x0 <- item x 0 ;;
          y1 <- item y (-1) ;;
          head <- factory x0 y1 ;;
          if truthy (Box_dom head)
          then
            inner <- nesting factory x' (slice None (Some (-1)) y) ;;
            Id x0 @@ inner @@ Id y1 >> of_box head
          else
            inner <- nesting factory x' (slice None (Some (-1)) y) ;;
            of_box head >> Id x0 @@ inner @@ Id y1
      end
  end.

(** [Diagram.cups] and [Diagram.caps], with [cup_factory = Cup] and
    [cap_factory = Cap]. *)
Definition cups (left right : Ty) : result Diagram := nesting Cup left right.
Definition caps (left right : Ty) : result Diagram := nesting Cap left right.

(** ** Transposition and currying *)

(** [Diagram.transpose]. *)
Definition transpose (self : Diagram) (left : bool) : result Diagram :=
  if left then
    bend <- caps (dom self) (Ty_l (dom self)) ;;
    top <- Id (Ty_l (cod self)) @@ bend
           >> Id (Ty_l (cod self)) @@ self @@ Id (Ty_l (dom self)) ;;
    close <- cups (Ty_l (cod self)) (cod self) ;;
    top >> close @@ Id (Ty_l (dom self))
  else
    bend <- caps (Ty_r (dom self)) (dom self) ;;
    top <- bend @@ Id (Ty_r (cod self))
           >> Id (Ty_r (dom self)) @@ self @@ Id (Ty_r (cod self)) ;;
    close <- cups (cod self) (Ty_r (cod self)) ;;
    top >> Id (Ty_r (dom self)) @@ close.

(** [Diagram.curry]. *)
Definition curry (self : Diagram) (n : Z) (left : bool) : result Diagram :=
  if left then
    let base := slice None (Some n) (dom self) in
    let exponent := slice (Some n) None (dom self) in
    bend <- caps exponent (Ty_l exponent) ;;
    Id base @@ bend >> self @@ Id (Ty_l exponent)
  else
    let offset := len (dom self) - n in
    let base := slice (Some offset) None (dom self) in
    let exponent := slice None (Some offset) (dom self) in
    bend <- caps (Ty_r exponent) exponent ;;
    bend @@ Id base >> Id (Ty_r exponent) @@ self.

(** ** Explicit cup insertion *)

Section ExplicitCup.

(** [rigid.py] uses the name [Swap] in [Diagram.cup] and leaves its
    definition to the modules that extend it: it is a parameter here. *)
Variable Swap : Ty -> Ty -> result Diagram.

(** One turn of the loop of [Diagram.cup], at index [i]. *)
Definition cup_step (self : Diagram) (i : Z) : result Diagram :=
  let t0 := slice (Some i) (Some (i + 1)) (cod self) in
  let t1 := slice (Some (i + 1)) (Some (i + 2)) (cod self) in
  s <- Swap t0 t1 ;;
  self >> Id (slice None (Some i) (cod self)) @@ s
          @@ Id (slice (Some (i + 2)) None (cod self)).

(** [for i in range(x, y - 1): self >>= ...]. *)
Fixpoint cup_loop (self : Diagram) (indices : list Z) : result Diagram :=
  match indices with
  | [] => Ok self
  | i :: rest => self' <- cup_step self i ;; cup_loop self' rest
  end.

(** [Diagram.cup]. *)
Definition cup (self : Diagram) (x y : Z) : result Diagram :=
  if (Z.min x y <? 0) || (len (cod self) <=? Z.max x y)
  then Raise (ValueError (indices_out_of_range x y))
  else
    let x' := Z.min x y in
    let y' := Z.max x y in
    self' <- cup_loop self (range x' (y' - 1)) ;;
    let t0 := slice (Some (y' - 1)) (Some y') (cod self') in
    let t1 := slice (Some y') (Some (y' + 1)) (cod self') in
    c <- Cup t0 t1 ;;
    self' >> Id (slice None (Some (y' - 1)) (cod self')) @@ of_box c
             @@ Id (slice (Some (y' + 1)) None (cod self')).

End ExplicitCup.

(** ** A rigid functor on objects *)

Section FunctorOnObjects.

(** The objects of the codomain, [self.cod.ob]. *)
Variable T : Type.

(** The attributes [l] and [r] of [self.cod.ob]: [None] when
    [hasattr(self.cod.ob, ...)] is false. *)
Variable cod_ob_l cod_ob_r : option (T -> T).

(** [image[::-1]] in the codomain. *)
Variable reversed : T -> T.

(** [super().__call__], the monoidal functor, on an object. *)
Variable super_call : Ob -> result T.

(** [Functor.__call__] on an [Ob]. *)
Equations? Functor_call (other : Ob) : result T
  by wf (Z.abs_nat (Ob_z other)) lt :=
  Functor_call other with Z.eq_dec (Ob_z other) 0 := {
    | left _ => super_call other
    | right _ with Z_lt_dec (Ob_z other) 0 := {
      | left _ with cod_ob_l := {
        | None => image <- Functor_call (mkOb (Ob_name other) 0) ;;
                  Ok (reversed image)
        | Some adjoint => image <- Functor_call (Ob_r other) ;;
                          Ok (adjoint image) }
      | right _ with cod_ob_r := {
        | None => image <- Functor_call (mkOb (Ob_name other) 0) ;;
                  Ok (reversed image)
        | Some adjoint => image <- Functor_call (Ob_l other) ;;
                          Ok (adjoint image) } } }.
Proof. all: simpl; lia. Qed.

End FunctorOnObjects.

(** ** Sample values *)

(** [rigid.py] neither defines nor imports [Swap]: in the module itself the
    lookup of the name fails when the loop of [Diagram.cup] runs. *)
Definition rigid_Swap (t0 t1 : Ty) : result Diagram := Raise (NameError "Swap").

(** The types and boxes of the examples in the docstrings. *)
Definition ob_n : Ob := mkOb "n" 0.
Definition ob_s : Ob := mkOb "s" 0.
Definition ob_a : Ob := mkOb "a" 0.
Definition ob_b : Ob := mkOb "b" 0.
Definition ob_c : Ob := mkOb "c" 0.
Definition Alice : Box := MkBox "Alice" [] [ob_n] None 0.
Definition jokes : Box := MkBox "jokes" [] [Ob_r ob_n; ob_s] None 0.
Definition cup_n : Box := MkCup [ob_n] [Ob_r ob_n].

(** [Alice >> Id(n) @ jokes >> Cup(n, n.r) @ Id(s)]. *)
Definition sentence : Diagram :=
  mkDiagram
    [mkLayer [] Alice []; mkLayer [ob_n] jokes []; mkLayer [] cup_n [ob_s]]
    [] [ob_s].


(** ** Winding of a type *)

(** The sum of the winding numbers of the objects of a type. *)
Fixpoint list_sum_z (t : Ty) : Z :=
  match t with
  | [] => 0
  | x :: t' => Ob_z x + list_sum_z t'
  end.


(** ** The types between the layers *)

(** The types a layer goes from and to: its box between the wires on its
    left and on its right. *)
Definition Layer_dom (x : Layer) : Ty :=
  Layer_left x ++ Box_dom (Layer_box x) ++ Layer_right x.

Definition Layer_cod (x : Layer) : Ty :=
  Layer_left x ++ Box_cod (Layer_box x) ++ Layer_right x.

(** The layers go from [t] to [t']: each layer starts on the type the
    layer before it ends on. *)
Fixpoint chain (t : Ty) (layers : list Layer) (t' : Ty) : Prop :=
  match layers with
  | [] => t = t'
  | x :: rest => t = Layer_dom x /\ chain (Layer_cod x) rest t'
  end.

(** The layers of a diagram go from its domain to its codomain. *)
Definition well_typed (d : Diagram) : Prop := chain (dom d) (inside d) (cod d).


(** ** Exponentials, evaluation and the grammar rules *)

(** [Ty.__lshift__]: [self @ other.l]. *)
Definition Ty_lshift (self other : Ty) : Ty := self ++ Ty_l other.

(** [Ty.__rshift__]: [self.r @ other]. *)
Definition Ty_rshift (self other : Ty) : Ty := Ty_r self ++ other.

(** [Diagram.over]: [base << exponent]. *)
Definition over (base exponent : Ty) : Ty := Ty_lshift base exponent.

(** [Diagram.under]: [exponent >> base]. *)
Definition under (base exponent : Ty) : Ty := Ty_rshift exponent base.

(** [Diagram.eval]. *)
Definition eval (base exponent : Ty) (left : bool) : result Diagram :=
  if left then c <- cups (Ty_l exponent) exponent ;; Ok (Id base @@ c)
  else c <- cups exponent (Ty_r exponent) ;; Ok (c @@ Id base).

(** [Diagram.fa], forward application. *)
Definition fa (left right : Ty) : result Diagram :=
  c <- cups (Ty_l right) right ;; Ok (Id left @@ c).

(** [Diagram.ba], backward application. *)
Definition ba (left right : Ty) : result Diagram :=
  c <- cups left (Ty_r left) ;; Ok (c @@ Id right).

(** [Diagram.fc], forward composition. *)
Definition fc (left middle right : Ty) : result Diagram :=
  c <- cups (Ty_l middle) middle ;; Ok (Id left @@ c @@ Id (Ty_l right)).

(** [Diagram.bc], backward composition. *)
Definition bc (left middle right : Ty) : result Diagram :=
  c <- cups middle (Ty_r middle) ;; Ok (Id (Ty_r left) @@ c @@ Id right).


(** ** Transposing one box *)

(** [layers[i]] for an integer [i], as for the items of a type. *)
Definition layer_at (layers : list Layer) (i : Z) : result Layer :=
  let j := if i <? 0 then i + len layers else i in
  if (j <? 0) || (len layers <=? j) then Raise IndexError
  else match nth_error layers (Z.to_nat j) with
       | Some x => Ok x
       | None => Raise IndexError
       end.

Section TransposeBox.

(** The end of [Diagram.transpose_box], from [left, _, right = layers[i]]
    on, which puts the transposed box back among the layers with
    [Encoding] and [decode] of the monoidal layer: it is a parameter here. *)
Variable rebuild : Diagram -> Z -> Layer -> Diagram -> result Diagram.

(** [Diagram.transpose_box]. *)
Definition transpose_box (self : Diagram) (i : Z) (left : bool) : result Diagram :=
  x <- layer_at (inside self) i ;;
  box_T <- (if left
            then b <- Box_r (Layer_box x) ;; b' <- dagger b ;;
                 transpose (of_box b') true
            else b <- Box_l (Layer_box x) ;; b' <- dagger b ;;
                 transpose (of_box b') false) ;;
  rebuild self i x box_T.

End TransposeBox.

(** ** A rigid functor on boxes *)

(** [for _ in range(n): x = f(x)], for an [f] that may raise. *)
Fixpoint iterate_result {A : Type} (n : nat) (f : A -> result A) (a : A) : result A :=
  match n with
  | O => Ok a
  | S n' => a' <- f a ;; iterate_result n' f a'
  end.

Section FunctorOnBoxes.

(** The objects and the arrows of the codomain. *)
Variable Object Arrow : Type.

(** [result.l] and [result.r] on the arrows of the codomain. *)
Variable arrow_l arrow_r : Arrow -> Arrow.

(** [self.cod.ar.cups] and [self.cod.ar.caps]. *)
Variable cod_cups cod_caps : Object -> Object -> result Arrow.

(** The functor on a type, and [super().__call__] on a box. *)
Variable call_Ty : Ty -> result Object.
Variable super_call_Box : Box -> result Arrow.

(** [Functor.__call__] on a [Cup], a [Cap] or another [Box]. *)
Definition Functor_call_Box (other : Box) : result Arrow :=
  match other with
  | MkCup _ _ =>
      x <- call_Ty (slice None (Some 1) (Box_dom other)) ;;
      y <- call_Ty (slice (Some 1) None (Box_dom other)) ;;
      cod_cups x y
  | MkCap _ _ =>
      x <- call_Ty (slice None (Some 1) (Box_cod other)) ;;
      y <- call_Ty (slice (Some 1) None (Box_cod other)) ;;
      cod_caps x y
  | MkBox _ _ _ _ z =>
      if z =? 0 then super_call_Box other
      else
        other' <- iterate_result (Z.abs_nat z)
                    (if 0 <? z then Box_l else Box_r) other ;;
        image <- super_call_Box other' ;;
        Ok (Nat.iter (Z.abs_nat z) (if z <? 0 then arrow_l else arrow_r) image)
  end.

End FunctorOnBoxes.

(** ** Formal sums *)

(** [class Sum]: the terms with the domain and the codomain. *)
Record Sum : Type := mkSum
  { terms : list Diagram; Sum_dom : Ty; Sum_cod : Ty }.

(** The terms of a sum go between its domain and its codomain. *)
Definition parallel (ts : list Diagram) (d c : Ty) : Prop :=
  Forall (fun t => dom t = d /\ cod t = c) ts.

Section SumAdjoints.

(** [self.sum], the constructor of sums of the monoidal layer. *)
Variable sum_factory : list Diagram -> Ty -> Ty -> result Sum.

(** [Sum.l]: the sum of the left transposes of the terms. *)
Definition Sum_l (self : Sum) : result Sum :=
  ts <- mapM Diagram_l (terms self) ;;
  sum_factory ts (Ty_l (Sum_dom self)) (Ty_l (Sum_cod self)).

(** [Sum.r]. *)
Definition Sum_r (self : Sum) : result Sum :=
  ts <- mapM Diagram_r (terms self) ;;
  sum_factory ts (Ty_r (Sum_dom self)) (Ty_r (Sum_cod self)).

End SumAdjoints.

(** ** The trace of a compact diagram *)

Section Trace.

(** [compact.Diagram] has its own cups, caps and right adjoints of types,
    those of the tortile layer: they are parameters here. *)
Variable compact_caps compact_cups : Ty -> Ty -> result Diagram.
Variable compact_r : Ty -> Ty.

(** [compact.Diagram.trace]. *)
Definition trace (self : Diagram) (n : Z) : result Diagram :=
  bend <- compact_caps (slice (Some (- n)) None (dom self))
            (compact_r (slice (Some (- n)) None (dom self))) ;;
  top <- Id (slice None (Some (- n)) (dom self)) @@ bend
         >> self @@ Id (compact_r (slice (Some (- n)) None (dom self))) ;;
  close <- compact_cups (slice (Some (- n)) None (cod self))
             (compact_r (slice (Some (- n)) None (cod self))) ;;
  top >> Id (slice None (Some (- n)) (cod self)) @@ close.

End Trace.


(** * function.py: python functions on lists, with dimensions *)

Module Fn.

(** The messages of the exceptions raised in [function.py]. *)
Inductive Message : Type :=
| expected_non_negative_integer (got : Z)
| expected_input_of_length (expected got : Z)
| does_not_compose (f g : string).

Section Functions.

(** The items of the lists, and the exceptions a wrapped function raises. *)
Variable V E : Type.

Inductive exn : Type :=
| ValueError (msg : Message)
| AxiomError (msg : Message)
| Raised (e : E).

Inductive outcome (A : Type) : Type :=
| Returns (a : A)
| Raises (e : exn).
Arguments Returns {A} a.
Arguments Raises {A} e.

Definition bind {A B : Type} (m : outcome A) (k : A -> outcome B) : outcome B :=
  match m with
  | Returns a => k a
  | Raises e => Raises e
  end.

(** [class Dim]: a dimension, built by [Dim(x)]. *)
Record Dim : Type := mkDim { dim : Z }.

(** [Dim.__init__]: a negative [x] is refused. *)
Definition Dim_init (x : Z) : outcome Dim :=
  if x <? 0 then Raises (ValueError (expected_non_negative_integer x))
  else Returns (mkDim x).

(** [Dim.__matmul__]: [Dim(self.dim + other.dim)]; [Dim.__add__] is the
    same. *)
Definition Dim_matmul (self other : Dim) : outcome Dim :=
  Dim_init (dim self + dim other).

(** [class Function]: a name, a domain, a codomain and a python function
    on lists, which returns a list or raises. *)
Record Function : Type := mkFunction
  { name : string; dom : Dim; cod : Dim; function : list V -> outcome (list V) }.

(** [Function.__call__]: the length of the input is checked, not the
    length of the output. *)
Definition call (self : Function) (value : list V) : outcome (list V) :=
  if negb (len value =? dim (dom self))
  then Raises (AxiomError (expected_input_of_length (dim (dom self)) (len value)))
  else function self value.

(** [Function.then]. *)
Definition then_ (self other : Function) : outcome Function :=
  if negb (dim (cod self) =? dim (dom other))
  then Raises (AxiomError (does_not_compose (name self) (name other)))
  else Returns
         (mkFunction (name self ++ " >> " ++ name other)%string (dom self) (cod other)
            (fun x => bind (call self x) (fun y => call other y))).

(** [Function.tensor]. *)
Definition tensor (self other : Function) : outcome Function :=
  bind (Dim_matmul (dom self) (dom other)) (fun dom' =>
  bind (Dim_matmul (cod self) (cod other)) (fun cod' =>
  Returns
    (mkFunction (name self ++ " @ " ++ name other)%string dom' cod'
       (fun x =>
          bind (call self (slice None (Some (dim (dom self))) x)) (fun a =>
          bind (call other (slice (Some (dim (dom self))) None x)) (fun b =>
          Returns (a ++ b))))))).

(** [str] of a python integer. *)
Definition str_int (x : Z) : string := NilZero.string_of_int (Z.to_int x).

(** [Dim.__repr__] and [Dim.__str__]: ["Dim({})".format(self.dim)]. *)
Definition Dim_repr (d : Dim) : string :=
  ("Dim(" ++ str_int (dim d) ++ ")")%string.

(** [class Id], on a dimension or on an integer: the function
    [lambda x: x], named after its argument. *)
Definition Id (d : Dim + Z) : outcome Function :=
  match d with
  | inl d' =>
      Returns (mkFunction ("Id(" ++ Dim_repr d' ++ ")")%string d' d'
                 (fun x => Returns x))
  | inr x =>
      bind (Dim_init x) (fun d' =>
      Returns (mkFunction ("Id(" ++ str_int x ++ ")")%string d' d'
                 (fun x => Returns x)))
  end.

End Functions.

Arguments Returns {E A} a.
Arguments Raises {E A} e.
Arguments ValueError {E} msg.
Arguments AxiomError {E} msg.
Arguments Raised {E} e.
Arguments bind {E A B} m k.
Arguments Dim_init {E} x.
Arguments Dim_matmul {E} self other.
Arguments name {V E} f.
Arguments dom {V E} f.
Arguments cod {V E} f.
Arguments function {V E} f.
Arguments mkFunction {V E} name dom cod function.
Arguments call {V E} self value.
Arguments then_ {V E} self other.
Arguments tensor {V E} self other.
Arguments Id {V E} d.

End Fn.

Notation "x <~ m ;; k" := (Fn.bind m (fun x => k))
  (at level 61, m at next level, right associativity).

(** A function that returns, on every input of the length of its domain, a
    list of the length of its codomain. *)
Definition Fn_respects {V E : Type} (f : Fn.Function V E) : Prop :=
  forall x, len x = Fn.dim (Fn.dom f) ->
            exists y, Fn.function f x = Fn.Returns y /\ len y = Fn.dim (Fn.cod f).

(** The functions of the docstrings of [function.py], on lists of integers. *)
Definition Fn_swap : Fn.Function Z unit :=
  Fn.mkFunction "swap" (Fn.mkDim 2) (Fn.mkDim 2) (fun x => Fn.Returns (rev x)).

Definition Fn_copy : Fn.Function Z unit :=
  Fn.mkFunction "copy" (Fn.mkDim 1) (Fn.mkDim 2) (fun x => Fn.Returns (x ++ x)).

Definition Fn_add : Fn.Function Z unit :=
  Fn.mkFunction "add" (Fn.mkDim 2) (Fn.mkDim 1)
    (fun x => Fn.Returns [nth 0 x 0 + nth 1 x 0]).


(** ** Functors into functions on lists *)

Fixpoint Fn_mapM {E A B : Type} (f : A -> Fn.outcome E B) (l : list A)
  : Fn.outcome E (list B) :=
  match l with
  | [] => Fn.Returns []
  | a :: l' => b <~ f a ;; bs <~ Fn_mapM f l' ;; Fn.Returns (b :: bs)
  end.

(** [sum(dims, start)] for dimensions, with [Dim.__add__]. *)
Definition Dim_sum {E : Type} (dims : list Fn.Dim) (start : Fn.Dim)
  : Fn.outcome E Fn.Dim :=
  fold_left (fun acc d => a <~ acc ;; Fn.Dim_matmul a d) dims (Fn.Returns start).

Section PythonFunctor.

(** The items of the lists and the exceptions, the atomic types and the
    boxes of the diagrams of [moncat], with the domain and the codomain of
    a box. *)
Variable V E K B : Type.
Variable box_dom box_cod : B -> list K.

(** [self.ob[Ty(x)]] on an atomic type, and [super().__call__] on a box:
    both raise when the key is missing. *)
Variable ob : K -> Fn.outcome E Fn.Dim.
Variable ar : B -> Fn.outcome E (Fn.Function V E).

(** [PythonFunctor.__call__] on a type:
    [sum([self.ob[Ty(x)] for x in diagram], Dim(0))]. *)
Definition PythonFunctor_Ty (t : list K) : Fn.outcome E Fn.Dim :=
  dims <~ Fn_mapM ob t ;;
  start <~ Fn.Dim_init 0 ;;
  Dim_sum dims start.

(** One turn of the loop of [PythonFunctor.__call__] on a diagram, on the
    box [box] at offset [off]. *)
Definition PythonFunctor_step (state : list K * Fn.Function V E) (box : B) (off : Z)
  : Fn.outcome E (list K * Fn.Function V E) :=
  let scan := fst state in
  let result := snd state in
  dl <~ PythonFunctor_Ty (slice None (Some off) scan) ;;
  id_l <~ Fn.Id (inl dl) ;;
  dr <~ PythonFunctor_Ty (slice (Some (off + len (box_dom box))) None scan) ;;
  id_r <~ Fn.Id (inl dr) ;;
  image <~ ar box ;;
  left <~ Fn.tensor id_l image ;;
  layer <~ Fn.tensor left id_r ;;
  result' <~ Fn.then_ result layer ;;
  Fn.Returns
    (slice None (Some off) scan ++ box_cod box
       ++ slice (Some (off + len (box_dom box))) None scan,
     result').

(** [for box, off in zip(diagram.boxes, diagram.offsets): ...]. *)
Fixpoint PythonFunctor_loop (state : list K * Fn.Function V E)
         (boxes_offsets : list (B * Z)) : Fn.outcome E (list K * Fn.Function V E) :=
  match boxes_offsets with
  | [] => Fn.Returns state
  | (box, off) :: rest =>
      state' <~ PythonFunctor_step state box off ;;
      PythonFunctor_loop state' rest
  end.

(** [PythonFunctor.__call__] on a diagram, given by its domain, its boxes
    and their offsets. *)
Definition PythonFunctor_Diagram (dom : list K) (boxes_offsets : list (B * Z))
  : Fn.outcome E (Fn.Function V E) :=
  d <~ PythonFunctor_Ty dom ;;
  identity <~ Fn.Id (inl d) ;;
  state <~ PythonFunctor_loop (dom, identity) boxes_offsets ;;
  Fn.Returns (snd state).

(** The boxes at their offsets go from the type [scan] to the type [cod]. *)
Fixpoint scans (scan : list K) (boxes_offsets : list (B * Z)) (cod : list K) : Prop :=
  match boxes_offsets with
  | [] => scan = cod
  | (box, off) :: rest =>
      exists l r, scan = l ++ box_dom box ++ r /\ len l = off
                  /\ scans (l ++ box_cod box ++ r) rest cod
  end.

End PythonFunctor.

(** The sum of the dimensions [w] of the atomic types of a type. *)
Definition weight {K : Type} (w : K -> Z) (t : list K) : Z :=
  fold_right (fun k acc => w k + acc) 0 t.


(** ** Printing objects, and objects as trees *)

(** [n * s] for an integer [n] and a string [s]: no copy when [n <= 0]. *)
Definition str_times (n : Z) (s : string) : string :=
  Nat.iter (Z.to_nat n) (fun acc => (s ++ acc)%string) ""%string.

(** [Ob.__str__], for a name that is a string. *)
Definition Ob_str (x : Ob) : string :=
  String.append (Ob_name x)
    (if Ob_z x <? 0 then str_times (- Ob_z x) ".l" else str_times (Ob_z x) ".r").

(** The values in the tree of an object, and a tree: a python dictionary
    from strings, as the list of its items. *)
Inductive tree_value : Type :=
| VStr (s : string)
| VInt (z : Z).

Definition tree : Type := list (string * tree_value).

(** [tree.get(key)]. *)
Fixpoint tree_get (key : string) (t : tree) : option tree_value :=
  match t with
  | [] => None
  | (k, v) :: t' => if String.eqb k key then Some v else tree_get key t'
  end.

(** [tree[key] = value]. *)
Fixpoint tree_set (key : string) (value : tree_value) (t : tree) : tree :=
  match t with
  | [] => [(key, value)]
  | (k, v) :: t' =>
      if String.eqb k key then (k, value) :: t' else (k, v) :: tree_set key value t'
  end.

(** The exceptions of [Ob.from_tree]. *)
Inductive tree_error : Type :=
| KeyError (key : string)
| NotAnInt (value : tree_value).

Section ObTrees.

(** [super().to_tree()], the tree of the object of the base category. *)
Variable super_to_tree : Ob -> tree.

(** [Ob.to_tree]. *)
Definition Ob_to_tree (self : Ob) : tree :=
  let t := super_to_tree self in
  if negb (Ob_z self =? 0) then tree_set "z" (VInt (Ob_z self)) t else t.

End ObTrees.

(** [Ob.from_tree]: the name and the winding number of the object built,
    [KeyError] without a name, and the refusal of [Ob.__init__] for a
    winding number that is not an integer. *)
Definition Ob_from_tree (t : tree) : tree_error + (tree_value * Z) :=
  match tree_get "name" t with
  | None => inl (KeyError "name")
  | Some name =>
      match tree_get "z" t with
      | None => inr (name, 0)
      | Some (VInt z) => inr (name, z)
      | Some v => inl (NotAnInt v)
      end
  end.


(** ** The types of the free rigid category on one generator *)

(** [PRO(n)]: the class [PRO] of [rigid.py] is a subclass of [Ty] that
    takes its content, the number [n] of wires, from the monoidal layer. *)
Record PRO : Type := mkPRO { PRO_n : Z }.

(** [PRO.factory]. *)
Definition PRO_factory {A : Type} (old : list A) : PRO := mkPRO (len old).

(** [PRO.l] and [PRO.r]: the two properties override those of [Ty] and
    return [self]. *)
Definition PRO_l (self : PRO) : PRO := self.

Definition PRO_r (self : PRO) : PRO := self.

(** A rigid type is an instance of [Ty] or of its subclass [PRO]: [.l] and
    [.r] are looked up in the class of the instance. *)
Inductive rigid_type : Type :=
| of_Ty (t : Ty)
| of_PRO (p : PRO).

Definition rigid_type_l (x : rigid_type) : rigid_type :=
  match x with
  | of_Ty t => of_Ty (Ty_l t)
  | of_PRO p => of_PRO (PRO_l p)
  end.

Definition rigid_type_r (x : rigid_type) : rigid_type :=
  match x with
  | of_Ty t => of_Ty (Ty_r t)
  | of_PRO p => of_PRO (PRO_r p)
  end.

(** * Properties *)

(** ** Equality tests, adjoints of objects and types *)

Lemma Ob_eqb_eq (x y : Ob) : Ob_eqb x y = true <-> x = y.
Proof.
  destruct x as [n1 z1], y as [n2 z2]; unfold Ob_eqb; simpl.
  rewrite andb_true_iff, String.eqb_eq, Z.eqb_eq.
  split; [intros [-> ->]; reflexivity | intros H; inversion H; auto].
Qed.

Lemma Ty_eqb_eq (s t : Ty) : Ty_eqb s t = true <-> s = t.
Proof.
  revert t; induction s as [|x s IH]; intros [|y t]; simpl;
    try (split; [discriminate | discriminate]); [tauto|].
  rewrite andb_true_iff, Ob_eqb_eq, IH.
  split; [intros [-> ->]; reflexivity | intros H; inversion H; auto].
Qed.

Lemma Ty_eqb_refl (t : Ty) : Ty_eqb t t = true.
Proof. apply Ty_eqb_eq; reflexivity. Qed.

Lemma Ty_eqb_neq (s t : Ty) : Ty_eqb s t = false <-> s <> t.
Proof.
  rewrite <- Ty_eqb_eq. destruct (Ty_eqb s t); split; congruence.
Qed.

Lemma Ob_l_r (x : Ob) : Ob_r (Ob_l x) = x.
Proof. destruct x; unfold Ob_l, Ob_r; simpl; f_equal; lia. Qed.

Lemma Ob_r_l (x : Ob) : Ob_l (Ob_r x) = x.
Proof. destruct x; unfold Ob_l, Ob_r; simpl; f_equal; lia. Qed.

Lemma Ty_l_r (t : Ty) : Ty_r (Ty_l t) = t.
Proof.
  unfold Ty_l, Ty_r. rewrite <- map_rev, rev_involutive, map_map.
  rewrite <- (map_id t) at 2. apply map_ext, Ob_l_r.
Qed.

Lemma Ty_r_l (t : Ty) : Ty_l (Ty_r t) = t.
Proof.
  unfold Ty_l, Ty_r. rewrite <- map_rev, rev_involutive, map_map.
  rewrite <- (map_id t) at 2. apply map_ext, Ob_r_l.
Qed.

Lemma Ty_l_cons (a : Ob) (t : Ty) : Ty_l (a :: t) = Ty_l t ++ [Ob_l a].
Proof. unfold Ty_l; simpl; rewrite map_app; reflexivity. Qed.

Lemma Ty_r_cons (a : Ob) (t : Ty) : Ty_r (a :: t) = Ty_r t ++ [Ob_r a].
Proof. unfold Ty_r; simpl; rewrite map_app; reflexivity. Qed.

Lemma Ty_l_app (s t : Ty) : Ty_l (s ++ t) = Ty_l t ++ Ty_l s.
Proof. unfold Ty_l; rewrite rev_app_distr, map_app; reflexivity. Qed.

Lemma Ty_r_app (s t : Ty) : Ty_r (s ++ t) = Ty_r t ++ Ty_r s.
Proof. unfold Ty_r; rewrite rev_app_distr, map_app; reflexivity. Qed.

Lemma Ty_l_length (t : Ty) : List.length (Ty_l t) = List.length t.
Proof. unfold Ty_l; rewrite length_map, length_rev; reflexivity. Qed.

Lemma Ty_r_length (t : Ty) : List.length (Ty_r t) = List.length t.
Proof. unfold Ty_r; rewrite length_map, length_rev; reflexivity. Qed.

(** ** The constructors of cups and caps *)

Lemma adjoints_dec (a b : Ob) :
  negb (Ty_eqb (Ty_r [a]) [b]) && negb (Ty_eqb [a] (Ty_r [b])) = false
  <-> adjoints a b.
Proof.
  unfold adjoints, Ty_r; simpl.
  rewrite andb_false_iff, !negb_false_iff, !andb_true_r, !Ob_eqb_eq; tauto.
Qed.

Lemma Cup_atomic (a b : Ob) :
  Cup [a] [b] =
  if negb (Ty_eqb (Ty_r [a]) [b]) && negb (Ty_eqb [a] (Ty_r [b]))
  then Raise (AxiomError (are_not_adjoints [a] [b]))
  else Ok (MkCup [a] [b]).
Proof. reflexivity. Qed.

Lemma Cap_atomic (a b : Ob) :
  Cap [a] [b] =
  if negb (Ty_eqb [a] (Ty_r [b])) && negb (Ty_eqb (Ty_r [a]) [b])
  then Raise (AxiomError (are_not_adjoints [a] [b]))
  else Ok (MkCap [a] [b]).
Proof. reflexivity. Qed.

Lemma Cup_adjoints (a b : Ob) : adjoints a b -> Cup [a] [b] = Ok (MkCup [a] [b]).
Proof.
  intros H. rewrite Cup_atomic.
  apply adjoints_dec in H. rewrite H. reflexivity.
Qed.

Lemma Cap_adjoints (a b : Ob) : adjoints a b -> Cap [a] [b] = Ok (MkCap [a] [b]).
Proof.
  intros H. rewrite Cap_atomic, andb_comm.
  apply adjoints_dec in H. rewrite H. reflexivity.
Qed.

Lemma Cup_not_adjoints (a b : Ob) :
  ~ adjoints a b -> Cup [a] [b] = Raise (AxiomError (are_not_adjoints [a] [b])).
Proof.
  intros H. rewrite Cup_atomic.
  destruct (negb (Ty_eqb (Ty_r [a]) [b]) && negb (Ty_eqb [a] (Ty_r [b]))) eqn:E;
    [reflexivity | apply adjoints_dec in E; contradiction].
Qed.

Lemma Cap_not_adjoints (a b : Ob) :
  ~ adjoints a b -> Cap [a] [b] = Raise (AxiomError (are_not_adjoints [a] [b])).
Proof.
  intros H. rewrite Cap_atomic, andb_comm.
  destruct (negb (Ty_eqb (Ty_r [a]) [b]) && negb (Ty_eqb [a] (Ty_r [b]))) eqn:E;
    [reflexivity | apply adjoints_dec in E; contradiction].
Qed.

Lemma adjoints_decidable (a b : Ob) : adjoints a b \/ ~ adjoints a b.
Proof.
  destruct (negb (Ty_eqb (Ty_r [a]) [b]) && negb (Ty_eqb [a] (Ty_r [b]))) eqn:E.
  - right. intros H. apply adjoints_dec in H. congruence.
  - left. apply adjoints_dec, E.
Qed.

(** Both constructors refuse types that are not of length one. *)
Lemma Cup_Ok_atomic (l r : Ty) (b : Box) :
  Cup l r = Ok b -> exists x y, l = [x] /\ r = [y].
Proof.
  unfold Cup, len.
  destruct (Z.of_nat (List.length l) =? 1) eqn:E1; [|discriminate].
  destruct (Z.of_nat (List.length r) =? 1) eqn:E2; [|discriminate].
  apply Z.eqb_eq in E1, E2. intros _.
  destruct l as [|x [|? ?]]; simpl in E1; try lia.
  destruct r as [|y [|? ?]]; simpl in E2; try lia.
  exists x, y; auto.
Qed.

Lemma Cap_Ok_atomic (l r : Ty) (b : Box) :
  Cap l r = Ok b -> exists x y, l = [x] /\ r = [y].
Proof.
  unfold Cap, len.
  destruct (Z.of_nat (List.length l) =? 1) eqn:E1; [|discriminate].
  destruct (Z.of_nat (List.length r) =? 1) eqn:E2; [|discriminate].
  apply Z.eqb_eq in E1, E2. intros _.
  destruct l as [|x [|? ?]]; simpl in E1; try lia.
  destruct r as [|y [|? ?]]; simpl in E2; try lia.
  exists x, y; auto.
Qed.

(** A cup accepted by its constructor is on two adjoint objects. *)
Lemma Cup_Ok_inv (l r : Ty) (b : Box) :
  Cup l r = Ok b ->
  exists x y, l = [x] /\ r = [y] /\ adjoints x y /\ b = MkCup [x] [y].
Proof.
  intros H. destruct (Cup_Ok_atomic _ _ _ H) as (x & y & -> & ->).
  exists x, y. destruct (adjoints_decidable x y) as [A | A].
  - rewrite (Cup_adjoints _ _ A) in H. inversion H; auto.
  - rewrite (Cup_not_adjoints _ _ A) in H. discriminate.
Qed.

Lemma Cap_Ok_inv (l r : Ty) (b : Box) :
  Cap l r = Ok b ->
  exists x y, l = [x] /\ r = [y] /\ adjoints x y /\ b = MkCap [x] [y].
Proof.
  intros H. destruct (Cap_Ok_atomic _ _ _ H) as (x & y & -> & ->).
  exists x, y. destruct (adjoints_decidable x y) as [A | A].
  - rewrite (Cap_adjoints _ _ A) in H. inversion H; auto.
  - rewrite (Cap_not_adjoints _ _ A) in H. discriminate.
Qed.

(** C4: on two types of length one, [Cup(left, right)] and
    [Cap(left, right)] succeed if and only if [left.r == right] or
    [left == right.r], and raise [AxiomError] otherwise; so does
    [Cup(Ty('a'), Ty('b'))]. *)
Theorem Cup_Cap_succeed_iff_adjoint (a b : Ob) :
  ((exists box, Cup [a] [b] = Ok box) <-> (Ty_r [a] = [b] \/ [a] = Ty_r [b]))
  /\ ((exists box, Cap [a] [b] = Ok box) <-> (Ty_r [a] = [b] \/ [a] = Ty_r [b]))
  /\ (Cup [a] [b] = Ok (MkCup [a] [b])
      \/ Cup [a] [b] = Raise (AxiomError (are_not_adjoints [a] [b])))
  /\ (Cap [a] [b] = Ok (MkCap [a] [b])
      \/ Cap [a] [b] = Raise (AxiomError (are_not_adjoints [a] [b])))
  /\ Cup [mkOb "a" 0] [mkOb "b" 0]
     = Raise (AxiomError (are_not_adjoints [mkOb "a" 0] [mkOb "b" 0])).
Proof.
  assert (E : (Ty_r [a] = [b] \/ [a] = Ty_r [b]) <-> adjoints a b).
  { unfold adjoints, Ty_r; simpl.
    split; (intros [H | H]; [left | right]); congruence. }
  rewrite E. repeat split.
  - intros [box H]. destruct (Cup_Ok_inv _ _ _ H) as (x & y & Hx & Hy & A & _).
    inversion Hx; inversion Hy; subst; exact A.
  - intros A. eexists. apply Cup_adjoints, A.
  - intros [box H]. destruct (Cap_Ok_inv _ _ _ H) as (x & y & Hx & Hy & A & _).
    inversion Hx; inversion Hy; subst; exact A.
  - intros A. eexists. apply Cap_adjoints, A.
  - destruct (adjoints_decidable a b) as [A | A];
      [left; apply Cup_adjoints, A | right; apply Cup_not_adjoints, A].
  - destruct (adjoints_decidable a b) as [A | A];
      [left; apply Cap_adjoints, A | right; apply Cap_not_adjoints, A].
Qed.

(** C10: [dagger()] raises [AxiomError] on every rigid box, be it a plain
    box, a cup or a cap. *)
Theorem dagger_raises_AxiomError (b : Box) :
  exists msg, dagger b = Raise (AxiomError msg).
Proof. destruct b; simpl; eexists; reflexivity. Qed.

(** ** Adjoints of boxes, layers and diagrams *)

Lemma adjoints_l (x y : Ob) : adjoints x y -> adjoints (Ob_l y) (Ob_l x).
Proof.
  unfold adjoints. intros [H | H]; subst.
  - right. rewrite Ob_r_l, Ob_l_r. reflexivity.
  - left. rewrite Ob_r_l, Ob_l_r. reflexivity.
Qed.

Lemma adjoints_r (x y : Ob) : adjoints x y -> adjoints (Ob_r y) (Ob_r x).
Proof.
  unfold adjoints. intros [H | H]; subst.
  - right. reflexivity.
  - left. reflexivity.
Qed.

Lemma wf_Cup_inv (l r : Ty) :
  wf_box (MkCup l r) = true -> exists x y, l = [x] /\ r = [y] /\ adjoints x y.
Proof.
  simpl. destruct (Cup l r) eqn:E; [|discriminate]. intros _.
  destruct (Cup_Ok_inv _ _ _ E) as (x & y & ? & ? & ? & _). eauto.
Qed.

Lemma wf_Cap_inv (l r : Ty) :
  wf_box (MkCap l r) = true -> exists x y, l = [x] /\ r = [y] /\ adjoints x y.
Proof.
  simpl. destruct (Cap l r) eqn:E; [|discriminate]. intros _.
  destruct (Cap_Ok_inv _ _ _ E) as (x & y & ? & ? & ? & _). eauto.
Qed.

Lemma Box_l_Ok (b : Box) :
  wf_box b = true -> exists b', Box_l b = Ok b' /\ Box_r b' = Ok b.
Proof.
  destruct b as [name d c data z | l r | l r]; intros W.
  - eexists; split; [reflexivity|]. simpl. rewrite !Ty_l_r.
    replace (z - 1 + 1) with z by lia. reflexivity.
  - destruct (wf_Cup_inv _ _ W) as (x & y & -> & -> & A).
    exists (MkCup [Ob_l y] [Ob_l x]); split.
    + apply (Cup_adjoints (Ob_l y) (Ob_l x)), adjoints_l, A.
    + simpl. unfold Ty_r; simpl. rewrite !Ob_l_r. apply Cup_adjoints, A.
  - destruct (wf_Cap_inv _ _ W) as (x & y & -> & -> & A).
    exists (MkCap [Ob_l y] [Ob_l x]); split.
    + apply (Cap_adjoints (Ob_l y) (Ob_l x)), adjoints_l, A.
    + simpl. unfold Ty_r; simpl. rewrite !Ob_l_r. apply Cap_adjoints, A.
Qed.

Lemma Box_r_Ok (b : Box) :
  wf_box b = true -> exists b', Box_r b = Ok b' /\ Box_l b' = Ok b.
Proof.
  destruct b as [name d c data z | l r | l r]; intros W.
  - eexists; split; [reflexivity|]. simpl. rewrite !Ty_r_l.
    replace (z + 1 - 1) with z by lia. reflexivity.
  - destruct (wf_Cup_inv _ _ W) as (x & y & -> & -> & A).
    exists (MkCup [Ob_r y] [Ob_r x]); split.
    + apply (Cup_adjoints (Ob_r y) (Ob_r x)), adjoints_r, A.
    + simpl. unfold Ty_l; simpl. rewrite !Ob_r_l. apply Cup_adjoints, A.
  - destruct (wf_Cap_inv _ _ W) as (x & y & -> & -> & A).
    exists (MkCap [Ob_r y] [Ob_r x]); split.
    + apply (Cap_adjoints (Ob_r y) (Ob_r x)), adjoints_r, A.
    + simpl. unfold Ty_l; simpl. rewrite !Ob_r_l. apply Cap_adjoints, A.
Qed.

Lemma Layer_l_Ok (x : Layer) :
  wf_box (Layer_box x) = true ->
  exists x', Layer_l x = Ok x' /\ Layer_r x' = Ok x.
Proof.
  intros W. destruct (Box_l_Ok _ W) as (b' & E1 & E2).
  destruct x as [l b r]; simpl in *.
  eexists; split; unfold Layer_l, Layer_r; simpl.
  - rewrite E1; simpl. reflexivity.
  - simpl. rewrite E2; simpl. rewrite !Ty_l_r. reflexivity.
Qed.

Lemma Layer_r_Ok (x : Layer) :
  wf_box (Layer_box x) = true ->
  exists x', Layer_r x = Ok x' /\ Layer_l x' = Ok x.
Proof.
  intros W. destruct (Box_r_Ok _ W) as (b' & E1 & E2).
  destruct x as [l b r]; simpl in *.
  eexists; split; unfold Layer_l, Layer_r; simpl.
  - rewrite E1; simpl. reflexivity.
  - simpl. rewrite E2; simpl. rewrite !Ty_r_l. reflexivity.
Qed.

(** Mapping a fallible function and then its inverse over a list. *)
Lemma mapM_inverse {A B : Type} (f : A -> result B) (g : B -> result A)
      (P : A -> Prop) (l : list A) :
  (forall a, P a -> exists b, f a = Ok b /\ g b = Ok a) ->
  Forall P l ->
  exists l', mapM f l = Ok l' /\ mapM g l' = Ok l.
Proof.
  intros Hfg. induction 1 as [|a l Ha _ IH]; simpl.
  - exists []; auto.
  - destruct (Hfg a Ha) as (b & Ef & Eg). destruct IH as (l' & Em & Em').
    exists (b :: l'). rewrite Ef, Em; simpl. rewrite Eg, Em'; simpl. auto.
Qed.

Lemma wf_diagram_Forall (d : Diagram) :
  wf_diagram d = true ->
  Forall (fun x => wf_box (Layer_box x) = true) (inside d).
Proof. unfold wf_diagram. rewrite forallb_forall, Forall_forall. auto. Qed.

Lemma Diagram_l_eq (d : Diagram) :
  Diagram_l d =
  (ls <- mapM Layer_l (inside d) ;; Ok (mkDiagram ls (Ty_l (dom d)) (Ty_l (cod d)))).
Proof. reflexivity. Qed.

Lemma Diagram_r_eq (d : Diagram) :
  Diagram_r d =
  (ls <- mapM Layer_r (inside d) ;; Ok (mkDiagram ls (Ty_r (dom d)) (Ty_r (cod d)))).
Proof. reflexivity. Qed.

Lemma Diagram_l_r (d : Diagram) :
  wf_diagram d = true -> (d' <- Diagram_l d ;; Diagram_r d') = Ok d.
Proof.
  intros W. apply wf_diagram_Forall in W.
  destruct (mapM_inverse Layer_l Layer_r _ _ Layer_l_Ok W) as (ls & E1 & E2).
  rewrite Diagram_l_eq, E1; simpl. rewrite Diagram_r_eq; simpl.
  rewrite E2; simpl. rewrite !Ty_l_r. destruct d; reflexivity.
Qed.

Lemma Diagram_r_l (d : Diagram) :
  wf_diagram d = true -> (d' <- Diagram_r d ;; Diagram_l d') = Ok d.
Proof.
  intros W. apply wf_diagram_Forall in W.
  destruct (mapM_inverse Layer_r Layer_l _ _ Layer_r_Ok W) as (ls & E1 & E2).
  rewrite Diagram_r_eq, E1; simpl. rewrite Diagram_l_eq; simpl.
  rewrite E2; simpl. rewrite !Ty_r_l. destruct d; reflexivity.
Qed.

(** C3: for every object, type, box and diagram, the left adjoint followed
    by the right adjoint, and the right adjoint followed by the left one,
    give the thing back: [x.l.r == x == x.r.l].  The boxes are those the
    constructors return. *)
Theorem adjoint_involution (x : Ob) (t : Ty) (b : Box) (d : Diagram)
        (Hb : wf_box b = true) (Hd : wf_diagram d = true) :
  (Ob_r (Ob_l x) = x /\ x = Ob_l (Ob_r x))
  /\ (Ty_r (Ty_l t) = t /\ t = Ty_l (Ty_r t))
  /\ ((b' <- Box_l b ;; Box_r b') = Ok b /\ Ok b = (b' <- Box_r b ;; Box_l b'))
  /\ ((d' <- Diagram_l d ;; Diagram_r d') = Ok d
      /\ Ok d = (d' <- Diagram_r d ;; Diagram_l d')).
Proof.
  repeat split.
  - apply Ob_l_r.
  - symmetry; apply Ob_r_l.
  - apply Ty_l_r.
  - symmetry; apply Ty_r_l.
  - destruct (Box_l_Ok _ Hb) as (b' & -> & E); exact E.
  - destruct (Box_r_Ok _ Hb) as (b' & -> & E); symmetry; exact E.
  - apply Diagram_l_r, Hd.
  - symmetry; apply Diagram_r_l, Hd.
Qed.
(** ** Python indexing *)

Lemma item_nth (t : Ty) (i j : Z) (x : Ob) :
  j = (if i <? 0 then i + len t else i) ->
  0 <= j ->
  nth_error t (Z.to_nat j) = Some x ->
  item t i = Ok [x].
Proof.
  unfold item. intros <- H E.
  assert (L : (Z.to_nat j < List.length t)%nat)
    by (apply nth_error_Some; congruence).
  destruct (Z.ltb_spec j 0) as [?|_]; [lia|].
  destruct (Z.leb_spec (len t) j) as [?|_]; [unfold len in *; lia|].
  simpl. rewrite E. reflexivity.
Qed.

Lemma item_0 (a : Ob) (x : Ty) : item (a :: x) 0 = Ok [a].
Proof. apply (item_nth _ _ 0); [reflexivity | lia | reflexivity]. Qed.

Lemma item_last (y : Ty) (c : Ob) : item (y ++ [c]) (-1) = Ok [c].
Proof.
  apply (item_nth _ _ (Z.of_nat (List.length y))).
  - change (-1 <? 0) with true. cbv iota.
    unfold len; rewrite length_app; change (List.length [c]) with 1%nat; lia.
  - lia.
  - rewrite Nat2Z.id, nth_error_app2, Nat.sub_diag by lia. reflexivity.
Qed.

Lemma slice_0 {A : Type} (t : list A) : slice None (Some 0) t = [].
Proof.
  unfold slice, clamp. change (0 <? 0) with false. cbv iota.
  replace (Z.min 0 (len t) - 0) with 0 by (unfold len; lia). reflexivity.
Qed.

Lemma slice_tail {A : Type} (a : A) (t : list A) :
  slice (Some 1) None (a :: t) = t.
Proof.
  unfold slice, clamp, len. change (1 <? 0) with false. cbv iota.
  simpl List.length.
  replace (Z.min 1 (Z.of_nat (S (List.length t)))) with 1 by lia.
  replace (Z.to_nat (Z.of_nat (S (List.length t)) - 1)) with (List.length t) by lia.
  simpl. apply firstn_all.
Qed.

Lemma slice_init {A : Type} (t : list A) (c : A) :
  slice None (Some (-1)) (t ++ [c]) = t.
Proof.
  unfold slice, clamp, len. change (-1 <? 0) with true. cbv iota.
  rewrite length_app. simpl List.length.
  replace (Z.to_nat (Z.max 0 (-1 + Z.of_nat (List.length t + 1)) - 0))
    with (List.length t) by lia.
  simpl. rewrite firstn_app, Nat.sub_diag, firstn_all. simpl. apply app_nil_r.
Qed.

Lemma slice_to {A : Type} (n : Z) (t : list A) :
  0 <= n <= len t -> slice None (Some n) t = firstn (Z.to_nat n) t.
Proof.
  intros H. unfold slice, clamp.
  assert (E : (n <? 0) = false) by (apply Z.ltb_ge; lia).
  rewrite E. replace (Z.min n (len t) - 0) with n by lia. reflexivity.
Qed.

Lemma slice_from {A : Type} (n : Z) (t : list A) :
  0 <= n <= len t -> slice (Some n) None t = skipn (Z.to_nat n) t.
Proof.
  intros H. unfold slice, clamp.
  assert (E : (n <? 0) = false) by (apply Z.ltb_ge; lia).
  rewrite E. replace (Z.min n (len t)) with n by lia.
  rewrite firstn_all2; [reflexivity|].
  rewrite length_skipn. unfold len in *. lia.
Qed.

(** ** Nested cups and caps *)

(** The recursive case of [method] in [nesting]. *)
Lemma nesting_cons2 (factory : Ty -> Ty -> result Box) (a b : Ob) (x y : Ty) :
  nesting factory (a :: b :: x) y =
  (x0 <- item (a :: b :: x) 0 ;;
   y1 <- item y (-1) ;;
   head <- factory x0 y1 ;;
   if truthy (Box_dom head)
   then inner <- nesting factory (b :: x) (slice None (Some (-1)) y) ;;
        Id x0 @@ inner @@ Id y1 >> of_box head
   else inner <- nesting factory (b :: x) (slice None (Some (-1)) y) ;;
        of_box head >> Id x0 @@ inner @@ Id y1).
Proof. reflexivity. Qed.

Lemma cups_cons2 (a b c : Ob) (x y : Ty) :
  cups (a :: b :: x) (y ++ [c]) =
  (head <- Cup [a] [c] ;;
   inner <- cups (b :: x) y ;;
   Id [a] @@ inner @@ Id [c] >> of_box head).
Proof.
  unfold cups. rewrite nesting_cons2, item_0, item_last, slice_init. simpl bind.
  destruct (Cup [a] [c]) as [head|e] eqn:E; [|reflexivity]. simpl bind.
  destruct (Cup_Ok_inv _ _ _ E) as (x0 & y0 & _ & _ & _ & ->). reflexivity.
Qed.

Lemma caps_cons2 (a b c : Ob) (x y : Ty) :
  caps (a :: b :: x) (y ++ [c]) =
  (head <- Cap [a] [c] ;;
   inner <- caps (b :: x) y ;;
   of_box head >> Id [a] @@ inner @@ Id [c]).
Proof.
  unfold caps. rewrite nesting_cons2, item_0, item_last, slice_init. simpl bind.
  destruct (Cap [a] [c]) as [head|e] eqn:E; [|reflexivity]. simpl bind.
  destruct (Cap_Ok_inv _ _ _ E) as (x0 & y0 & _ & _ & _ & ->). reflexivity.
Qed.

Lemma Ty_r_singleton (a : Ob) : Ty_r [a] = [Ob_r a].
Proof. reflexivity. Qed.

Lemma Ty_l_singleton (a : Ob) : Ty_l [a] = [Ob_l a].
Proof. reflexivity. Qed.

Lemma adjoints_Ob_r (a : Ob) : adjoints a (Ob_r a).
Proof. left; reflexivity. Qed.

Lemma adjoints_Ob_l (a : Ob) : adjoints a (Ob_l a).
Proof. right; symmetry; apply Ob_l_r. Qed.

Lemma adjoints_r_Ob (a : Ob) : adjoints (Ob_r a) a.
Proof. right; reflexivity. Qed.

Lemma adjoints_l_Ob (a : Ob) : adjoints (Ob_l a) a.
Proof. left; apply Ob_l_r. Qed.

(** C2: the nested generator builds the atomic generator on [x[0]] and
    [y[-1]] and recurses on [x[1:]] and [y[:-1]]; nesting cups, the interior
    between the two endpoint wires comes before the outer cup; nesting caps,
    the outer cap comes first.  [cups(A, A.r)] is [Cup(A, A.r)] for [A] of
    length one, and [cups(A @ B, (A @ B).r)] is
    [Id(A) @ Cup(B, B.r) @ Id(A.r) >> Cup(A, A.r)]. *)
Theorem nesting_cups_caps (a b c A B : Ob) (x y : Ty) :
  (item (a :: b :: x) 0 = Ok [a] /\ item (y ++ [c]) (-1) = Ok [c]
   /\ slice (Some 1) None (a :: b :: x) = b :: x
   /\ slice None (Some (-1)) (y ++ [c]) = y)
  /\ cups (a :: b :: x) (y ++ [c]) =
     (head <- Cup [a] [c] ;;
      inner <- cups (b :: x) y ;;
      Id [a] @@ inner @@ Id [c] >> of_box head)
  /\ caps (a :: b :: x) (y ++ [c]) =
     (head <- Cap [a] [c] ;;
      inner <- caps (b :: x) y ;;
      of_box head >> Id [a] @@ inner @@ Id [c])
  /\ (Cup [A] (Ty_r [A]) = Ok (MkCup [A] (Ty_r [A]))
      /\ cups [A] (Ty_r [A]) = Ok (of_box (MkCup [A] (Ty_r [A]))))
  /\ (Cup [B] (Ty_r [B]) = Ok (MkCup [B] (Ty_r [B]))
      /\ cups [A; B] (Ty_r [A; B]) =
         (Id [A] @@ of_box (MkCup [B] (Ty_r [B])) @@ Id (Ty_r [A])
          >> of_box (MkCup [A] (Ty_r [A])))
      /\ cups [A; B] (Ty_r [A; B]) =
         Ok (mkDiagram
               [mkLayer [A] (MkCup [B] (Ty_r [B])) (Ty_r [A]);
                mkLayer [] (MkCup [A] (Ty_r [A])) []]
               ([A; B] ++ Ty_r [A; B]) [])).
Proof.
  assert (CA : Cup [A] (Ty_r [A]) = Ok (MkCup [A] (Ty_r [A])))
    by apply Cup_adjoints, adjoints_Ob_r.
  assert (CB : Cup [B] (Ty_r [B]) = Ok (MkCup [B] (Ty_r [B])))
    by apply Cup_adjoints, adjoints_Ob_r.
  assert (E2 : cups [A; B] (Ty_r [A; B]) =
               (Id [A] @@ of_box (MkCup [B] (Ty_r [B])) @@ Id (Ty_r [A])
                >> of_box (MkCup [A] (Ty_r [A])))).
  { change (Ty_r [A; B]) with ([Ob_r B] ++ [Ob_r A]).
    rewrite cups_cons2. rewrite <- !Ty_r_singleton, CA. simpl bind.
    unfold cups at 1. simpl nesting. rewrite CB. reflexivity. }
  refine (conj (conj _ (conj _ (conj _ _)))
            (conj _ (conj _ (conj (conj _ _) (conj _ (conj _ _)))))).
  - apply item_0.
  - apply item_last.
  - apply slice_tail.
  - apply slice_init.
  - apply cups_cons2.
  - apply caps_cons2.
  - exact CA.
  - unfold cups; simpl nesting. rewrite CA. reflexivity.
  - exact CB.
  - exact E2.
  - rewrite E2. unfold compose. simpl cod. simpl dom.
    rewrite Ty_eqb_refl. reflexivity.
Qed.

(** ** Nested caps and cups on a type and its adjoint *)

Lemma compose_Ok (f g : Diagram) :
  cod f = dom g -> f >> g = Ok (mkDiagram (inside f ++ inside g) (dom f) (cod g)).
Proof. intros E. unfold compose. rewrite E, Ty_eqb_refl. reflexivity. Qed.

Lemma caps_atomic (a b : Ob) :
  adjoints a b -> caps [a] [b] = Ok (of_box (MkCap [a] [b])).
Proof. intros H. unfold caps; simpl nesting. rewrite (Cap_adjoints _ _ H). reflexivity. Qed.

Lemma cups_atomic (a b : Ob) :
  adjoints a b -> cups [a] [b] = Ok (of_box (MkCup [a] [b])).
Proof. intros H. unfold cups; simpl nesting. rewrite (Cup_adjoints _ _ H). reflexivity. Qed.

(** [caps(x, x.l)] is defined for every type [x]: a diagram of [len(x)]
    layers from the unit to [x @ x.l]. *)
Lemma caps_l_total (x : Ty) :
  exists d, caps x (Ty_l x) = Ok d
            /\ dom d = [] /\ cod d = x ++ Ty_l x
            /\ List.length (inside d) = List.length x.
Proof.
  induction x as [|a x IH].
  - exists (Id []). repeat split.
  - destruct x as [|b x].
    + exists (of_box (MkCap [a] [Ob_l a])). split; [|repeat split].
      apply caps_atomic, adjoints_Ob_l.
    + destruct IH as (inner & E & Hdom & Hcod & Hlen).
      rewrite Ty_l_cons, caps_cons2, (Cap_adjoints _ _ (adjoints_Ob_l a)), E.
      simpl bind. rewrite compose_Ok.
      * eexists; split; [reflexivity|]. simpl dom. simpl cod. simpl inside.
        rewrite Hcod. repeat split.
        -- simpl. rewrite <- !app_assoc. reflexivity.
        -- simpl. rewrite app_nil_r, !length_map. simpl in Hlen. lia.
      * simpl. rewrite Hdom. reflexivity.
Qed.

(** [cups(x, x.r)] is defined for every type [x]: a diagram of [len(x)]
    layers from [x @ x.r] to the unit. *)
Lemma cups_r_total (x : Ty) :
  exists d, cups x (Ty_r x) = Ok d
            /\ dom d = x ++ Ty_r x /\ cod d = []
            /\ List.length (inside d) = List.length x.
Proof.
  induction x as [|a x IH].
  - exists (Id []). repeat split.
  - destruct x as [|b x].
    + exists (of_box (MkCup [a] [Ob_r a])). split; [|repeat split].
      apply cups_atomic, adjoints_Ob_r.
    + destruct IH as (inner & E & Hdom & Hcod & Hlen).
      rewrite Ty_r_cons, cups_cons2, (Cup_adjoints _ _ (adjoints_Ob_r a)), E.
      simpl bind. rewrite compose_Ok.
      * eexists; split; [reflexivity|]. simpl dom. simpl cod. simpl inside.
        rewrite Hdom. repeat split.
        -- simpl. rewrite <- !app_assoc. reflexivity.
        -- rewrite length_app, length_app, !length_map. simpl in *. lia.
      * simpl. rewrite Hcod. reflexivity.
Qed.

(** ** Currying *)

Lemma len_firstn (t : Ty) (n : Z) :
  0 <= n <= len t -> len (firstn (Z.to_nat n) t) = n.
Proof. unfold len. intros H. rewrite length_firstn. lia. Qed.

Lemma len_skipn (t : Ty) (n : Z) :
  0 <= n <= len t -> len (skipn (Z.to_nat n) t) = len t - n.
Proof. unfold len. intros H. rewrite length_skipn. lia. Qed.

(** C5, as the code has it: for [0 <= n <= len(d.dom)], [curry(n, left)]
    keeps [n] wires of the domain, the first ones when [left] is true, the
    last ones otherwise, and turns the other [len(d.dom) - n] wires into
    codomain wires: a cap on those wires, next to the identity on the wires
    kept, is composed before [d].  The domain of the result has length [n]. *)
Theorem curry_keeps_n_wires (d : Diagram) (n : Z) (H : 0 <= n <= len (dom d)) :
  (exists bend,
      caps (slice (Some n) None (dom d)) (Ty_l (slice (Some n) None (dom d)))
      = Ok bend
      /\ curry d n true =
         Ok (mkDiagram
               (inside (Id (slice None (Some n) (dom d)) @@ bend)
                ++ inside (d @@ Id (Ty_l (slice (Some n) None (dom d)))))
               (slice None (Some n) (dom d))
               (cod d ++ Ty_l (slice (Some n) None (dom d)))))
  /\ (exists bend,
      caps (Ty_r (slice None (Some (len (dom d) - n)) (dom d)))
           (slice None (Some (len (dom d) - n)) (dom d))
      = Ok bend
      /\ curry d n false =
         Ok (mkDiagram
               (inside (bend @@ Id (slice (Some (len (dom d) - n)) None (dom d)))
                ++ inside (Id (Ty_r (slice None (Some (len (dom d) - n)) (dom d))) @@ d))
               (slice (Some (len (dom d) - n)) None (dom d))
               (Ty_r (slice None (Some (len (dom d) - n)) (dom d)) ++ cod d)))
  /\ slice None (Some n) (dom d) ++ slice (Some n) None (dom d) = dom d
  /\ slice None (Some (len (dom d) - n)) (dom d)
     ++ slice (Some (len (dom d) - n)) None (dom d) = dom d
  /\ len (slice None (Some n) (dom d)) = n
  /\ len (slice (Some n) None (dom d)) = len (dom d) - n
  /\ len (slice (Some (len (dom d) - n)) None (dom d)) = n
  /\ len (slice None (Some (len (dom d) - n)) (dom d)) = len (dom d) - n.
Proof.
  assert (H' : 0 <= len (dom d) - n <= len (dom d)) by lia.
  rewrite !(slice_to n), !(slice_from n), !(slice_to (len (dom d) - n)),
    !(slice_from (len (dom d) - n)) by assumption.
  unfold curry.
  rewrite !(slice_to n), !(slice_from n), !(slice_to (len (dom d) - n)),
    !(slice_from (len (dom d) - n)) by assumption.
  set (k := Z.to_nat n). set (m := Z.to_nat (len (dom d) - n)).
  refine (conj _ (conj _ (conj _ (conj _ (conj _ (conj _ (conj _ _))))))).
  - destruct (caps_l_total (skipn k (dom d))) as (bend & E & Hdom & Hcod & _).
    exists bend. split; [exact E|]. rewrite E. simpl bind.
    rewrite compose_Ok.
    + simpl. rewrite Hdom, !app_nil_r. reflexivity.
    + simpl. rewrite Hcod, app_assoc, firstn_skipn. reflexivity.
  - destruct (caps_l_total (Ty_r (firstn m (dom d)))) as (bend & E & Hdom & Hcod & _).
    rewrite Ty_r_l in E, Hcod.
    exists bend. split; [exact E|]. rewrite E. simpl bind.
    rewrite compose_Ok.
    + simpl. rewrite Hdom. reflexivity.
    + simpl. rewrite Hcod, <- app_assoc, firstn_skipn. reflexivity.
  - apply firstn_skipn.
  - apply firstn_skipn.
  - apply len_firstn, H.
  - apply len_skipn, H.
  - unfold m. rewrite len_skipn by exact H'. lia.
  - apply len_firstn, H'.
Qed.

(** ** Snakes *)

(** [Id(t.r).transpose(left=True)] for [t] of length one: a cap on the
    right of the wire, then a cup on its left. *)
Lemma left_snake (o : Ob) :
  transpose (Id (Ty_r [o])) true =
  Ok (mkDiagram
        [mkLayer [o] (MkCap [Ob_r o] [o]) [];
         mkLayer [] (MkCup [o] [Ob_r o]) [o]]
        [o] [o]).
Proof.
  unfold transpose. cbn [Id dom cod].
  rewrite Ty_r_l, Ty_r_singleton, caps_atomic by apply adjoints_r_Ob.
  cbn [bind]. rewrite compose_Ok by reflexivity.
  cbn [bind]. rewrite cups_atomic by apply adjoints_Ob_r.
  cbn [bind]. rewrite compose_Ok by reflexivity.
  reflexivity.
Qed.

(** [Id(t.l).transpose(left=False)] for [t] of length one: a cap on the
    left of the wire, then a cup on its right. *)
Lemma right_snake (o : Ob) :
  transpose (Id (Ty_l [o])) false =
  Ok (mkDiagram
        [mkLayer [] (MkCap [o] [Ob_l o]) [o];
         mkLayer [o] (MkCup [Ob_l o] [o]) []]
        [o] [o]).
Proof.
  unfold transpose. cbn [Id dom cod].
  rewrite Ty_l_r, Ty_l_singleton, caps_atomic by apply adjoints_Ob_l.
  cbn [bind]. rewrite compose_Ok by reflexivity.
  cbn [bind]. rewrite cups_atomic by apply adjoints_l_Ob.
  cbn [bind]. rewrite compose_Ok by reflexivity.
  reflexivity.
Qed.

(** ** Explicit cup insertion *)

Lemma cup_range_test (n x y : Z) :
  (Z.min x y <? 0) || (n <=? Z.max x y)
  = (x <? 0) || (y <? 0) || (n <=? x) || (n <=? y).
Proof.
  destruct (Z.ltb_spec (Z.min x y) 0), (Z.leb_spec n (Z.max x y)),
    (Z.ltb_spec x 0), (Z.ltb_spec y 0), (Z.leb_spec n x), (Z.leb_spec n y);
    simpl; try reflexivity; lia.
Qed.

(** C9, as the code has it: [d.cup(x, y)] raises the out-of-range
    [ValueError] when an index is negative or at least [len(d.cod)];
    otherwise the indices are put in order by [min] and [max] and the call
    is the same as [d.cup(y, x)]: indices given in reversed order are not
    refused. *)
Theorem cup_out_of_range_or_symmetric
        (Swap : Ty -> Ty -> result Diagram) (d : Diagram) (x y : Z) :
  cup Swap d x y =
  if (x <? 0) || (y <? 0) || (len (cod d) <=? x) || (len (cod d) <=? y)
  then Raise (ValueError (indices_out_of_range x y))
  else cup Swap d y x.
Proof.
  rewrite <- cup_range_test. unfold cup.
  rewrite (Z.min_comm y x), (Z.max_comm y x).
  destruct ((Z.min x y <? 0) || (len (cod d) <=? Z.max x y)); reflexivity.
Qed.

(** ** A rigid functor on objects with a winding number *)

Lemma bind_Ok_r {A : Type} (m : result A) : (a <- m ;; Ok a) = m.
Proof. destruct m; reflexivity. Qed.

Lemma bind_assoc {A B C : Type} (m : result A) (f : A -> result B) (g : B -> result C) :
  (b <- (a <- m ;; f a) ;; g b) = (a <- m ;; b <- f a ;; g b).
Proof. destruct m; reflexivity. Qed.

(** The three branches of [Functor.__call__] on an [Ob]. *)
Lemma Functor_call_zero (T : Type) (l r : option (T -> T)) (reversed : T -> T)
      (super_call : Ob -> result T) (other : Ob) :
  Ob_z other = 0 ->
  Functor_call T l r reversed super_call other = super_call other.
Proof.
  intros H. etransitivity; [apply Functor_call_equation_1|].
  destruct (Z.eq_dec (Ob_z other) 0) as [E|E]; [reflexivity | lia].
Qed.

Lemma Functor_call_neg (T : Type) (l r : option (T -> T)) (reversed : T -> T)
      (super_call : Ob -> result T) (other : Ob) :
  Ob_z other < 0 ->
  Functor_call T l r reversed super_call other =
  match l with
  | None => image <- Functor_call T l r reversed super_call
                       (mkOb (Ob_name other) 0) ;;
            Ok (reversed image)
  | Some adjoint => image <- Functor_call T l r reversed super_call (Ob_r other) ;;
                    Ok (adjoint image)
  end.
Proof.
  intros H. etransitivity; [apply Functor_call_equation_1|].
  destruct (Z.eq_dec (Ob_z other) 0) as [E|E]; [lia|].
  change (Functor_call_unfold_clause_1 T l r reversed super_call other (right E))
    with (Functor_call_unfold_clause_1_clause_2 T l r reversed super_call other
            (Z_lt_dec (Ob_z other) 0) E).
  destruct (Z_lt_dec (Ob_z other) 0) as [L|L]; [|lia].
  change (Functor_call_unfold_clause_1_clause_2 T l r reversed super_call other
            (left L) E)
    with (Functor_call_unfold_clause_1_clause_2_clause_1 T l r reversed
            super_call other L E l).
  destruct l; reflexivity.
Qed.

Lemma Functor_call_pos (T : Type) (l r : option (T -> T)) (reversed : T -> T)
      (super_call : Ob -> result T) (other : Ob) :
  0 < Ob_z other ->
  Functor_call T l r reversed super_call other =
  match r with
  | None => image <- Functor_call T l r reversed super_call
                       (mkOb (Ob_name other) 0) ;;
            Ok (reversed image)
  | Some adjoint => image <- Functor_call T l r reversed super_call (Ob_l other) ;;
                    Ok (adjoint image)
  end.
Proof.
  intros H. etransitivity; [apply Functor_call_equation_1|].
  destruct (Z.eq_dec (Ob_z other) 0) as [E|E]; [lia|].
  change (Functor_call_unfold_clause_1 T l r reversed super_call other (right E))
    with (Functor_call_unfold_clause_1_clause_2 T l r reversed super_call other
            (Z_lt_dec (Ob_z other) 0) E).
  destruct (Z_lt_dec (Ob_z other) 0) as [L|L]; [lia|].
  change (Functor_call_unfold_clause_1_clause_2 T l r reversed super_call other
            (right L) E)
    with (Functor_call_unfold_clause_1_clause_2_clause_2 T l r reversed
            super_call other L E r).
  destruct r; reflexivity.
Qed.

(** The adjoint of the codomain applied [n] times, for a left adjoint of
    order [n]. *)
Lemma Functor_call_iter_l (T : Type) (adjoint : T -> T) (r : option (T -> T))
      (reversed : T -> T) (super_call : Ob -> result T) (name : string) (n : nat) :
  Functor_call T (Some adjoint) r reversed super_call (mkOb name (- Z.of_nat n)) =
  (image <- super_call (mkOb name 0) ;; Ok (Nat.iter n adjoint image)).
Proof.
  induction n as [|n IH].
  - rewrite Functor_call_zero by reflexivity. symmetry; apply bind_Ok_r.
  - rewrite Functor_call_neg by (simpl Ob_z; lia).
    replace (Ob_r (mkOb name (- Z.of_nat (S n)))) with (mkOb name (- Z.of_nat n))
      by (unfold Ob_r; simpl Ob_name; simpl Ob_z; f_equal; lia).
    rewrite IH, bind_assoc. reflexivity.
Qed.

Lemma Functor_call_iter_r (T : Type) (l : option (T -> T)) (adjoint : T -> T)
      (reversed : T -> T) (super_call : Ob -> result T) (name : string) (n : nat) :
  Functor_call T l (Some adjoint) reversed super_call (mkOb name (Z.of_nat n)) =
  (image <- super_call (mkOb name 0) ;; Ok (Nat.iter n adjoint image)).
Proof.
  induction n as [|n IH].
  - rewrite Functor_call_zero by reflexivity. symmetry; apply bind_Ok_r.
  - rewrite Functor_call_pos by (simpl Ob_z; lia).
    replace (Ob_l (mkOb name (Z.of_nat (S n)))) with (mkOb name (Z.of_nat n))
      by (unfold Ob_l; simpl Ob_name; simpl Ob_z; f_equal; lia).
    rewrite IH, bind_assoc. reflexivity.
Qed.

(** C8: on an object of winding [z <> 0] the functor applies the adjoint of
    the codomain, in the direction of the sign of [z], [|z|] times to the
    image of the object of winding [0]; when the objects of the codomain
    have no adjoint in that direction the result is that image reversed,
    and nothing is raised. *)
Theorem Functor_call_winding (T : Type) (cod_ob_l cod_ob_r : option (T -> T))
        (reversed : T -> T) (super_call : Ob -> result T)
        (other : Ob) (H : Ob_z other <> 0) :
  Functor_call T cod_ob_l cod_ob_r reversed super_call other =
  match (if Ob_z other <? 0 then cod_ob_l else cod_ob_r) with
  | Some adjoint =>
      image <- super_call (mkOb (Ob_name other) 0) ;;
      Ok (Nat.iter (Z.abs_nat (Ob_z other)) adjoint image)
  | None =>
      image <- super_call (mkOb (Ob_name other) 0) ;;
      Ok (reversed image)
  end.
Proof.
  destruct other as [name z]; simpl in *.
  destruct (Z.ltb_spec z 0) as [L|L].
  - destruct cod_ob_l as [adjoint|].
    + replace z with (- Z.of_nat (Z.abs_nat z)) at 1 by lia.
      apply Functor_call_iter_l.
    + rewrite Functor_call_neg by exact L.
      rewrite Functor_call_zero by reflexivity. reflexivity.
  - destruct cod_ob_r as [adjoint|].
    + replace z with (Z.of_nat (Z.abs_nat z)) at 1 by lia.
      apply Functor_call_iter_r.
    + rewrite Functor_call_pos by (simpl; lia).
      rewrite Functor_call_zero by reflexivity. reflexivity.
Qed.

(** ** Instances *)

Lemma adjoint_involution_witness :
  wf_box cup_n = true
  /\ wf_diagram sentence = true
  /\ (b' <- Box_l cup_n ;; Box_r b') = Ok cup_n
  /\ (d' <- Diagram_l sentence ;; Diagram_r d') = Ok sentence.
Proof.
  split; [reflexivity|]. split; [reflexivity|].
  destruct (adjoint_involution ob_n [ob_n; ob_s] cup_n sentence eq_refl eq_refl)
    as (_ & _ & (Hb & _) & (Hd & _)).
  split; assumption.
Defined.

Lemma curry_keeps_n_wires_witness :
  0 <= 1 <= len (dom (Id [ob_a; ob_b; ob_c]))
  /\ len (slice None (Some 1) (dom (Id [ob_a; ob_b; ob_c]))) = 1.
Proof.
  assert (H : 0 <= 1 <= len (dom (Id [ob_a; ob_b; ob_c])))
    by (split; discriminate).
  split; [exact H|].
  exact (proj1 (proj2 (proj2 (proj2 (proj2
           (curry_keeps_n_wires (Id [ob_a; ob_b; ob_c]) 1 H)))))).
Defined.

(** On [Id(a @ b @ c)], [curry(1)] leaves one wire in the domain and turns
    two into codomain wires, not one. *)
Lemma curry_last_n_wires_counterexample :
  curry (Id [ob_a; ob_b; ob_c]) 1 true =
  Ok (mkDiagram
        [mkLayer [ob_a] (MkCap [ob_b] [Ob_l ob_b]) [];
         mkLayer [ob_a; ob_b] (MkCap [ob_c] [Ob_l ob_c]) [Ob_l ob_b]]
        [ob_a]
        [ob_a; ob_b; ob_c; Ob_l ob_c; Ob_l ob_b])
  /\ len [ob_a] <> len (dom (Id [ob_a; ob_b; ob_c])) - 1.
Proof. split; [vm_compute; reflexivity | discriminate]. Qed.

(** On [Id(n @ n.r)] the call [cup(1, 0)], with its indices in reversed
    order, returns the diagram of [Cup(n, n.r)]. *)
Lemma cup_reversed_indices_counterexample :
  cup rigid_Swap (Id [ob_n; Ob_r ob_n]) 1 0 =
  Ok (mkDiagram [mkLayer [] (MkCup [ob_n] [Ob_r ob_n]) []] [ob_n; Ob_r ob_n] []).
Proof. vm_compute. reflexivity. Qed.

Lemma Functor_call_winding_witness :
  Ob_z (mkOb "n" (-2)) <> 0
  /\ Functor_call Ty (Some Ty_l) None (@rev Ob) (fun o => Ok [o; ob_s])
       (mkOb "n" (-2)) = Ok [mkOb "n" (-2); mkOb "s" (-2)]
  /\ Functor_call Ty (Some Ty_l) None (@rev Ob) (fun o => Ok [o; ob_s])
       (mkOb "n" 2) = Ok [ob_s; ob_n].
Proof.
  split; [discriminate|]. split.
  - exact (Functor_call_winding Ty (Some Ty_l) None (@rev Ob)
             (fun o => Ok [o; ob_s]) (mkOb "n" (-2)) ltac:(discriminate)).
  - exact (Functor_call_winding Ty (Some Ty_l) None (@rev Ob)
             (fun o => Ok [o; ob_s]) (mkOb "n" 2) ltac:(discriminate)).
Defined.

(** ** The double snake and the two snakes *)

Lemma caps_pair (a b c d : Ob) :
  adjoints a d -> adjoints b c ->
  caps [a; b] [c; d] =
  Ok (mkDiagram
        [mkLayer [] (MkCap [a] [d]) []; mkLayer [a] (MkCap [b] [c]) [d]]
        [] [a; b; c; d]).
Proof.
  intros Had Hbc. change [c; d] with ([c] ++ [d]).
  rewrite caps_cons2, (Cap_adjoints _ _ Had), (caps_atomic _ _ Hbc).
  cbn [bind]. rewrite compose_Ok by reflexivity. reflexivity.
Qed.

Lemma cups_pair (a b c d : Ob) :
  adjoints a d -> adjoints b c ->
  cups [a; b] [c; d] =
  Ok (mkDiagram
        [mkLayer [a] (MkCup [b] [c]) [d]; mkLayer [] (MkCup [a] [d]) []]
        [a; b; c; d] []).
Proof.
  intros Had Hbc. change [c; d] with ([c] ++ [d]).
  rewrite cups_cons2, (Cup_adjoints _ _ Had), (cups_atomic _ _ Hbc).
  cbn [bind]. rewrite compose_Ok by reflexivity. reflexivity.
Qed.

(** [Id(A @ B).transpose()]: two nested caps, then two nested cups. *)
Lemma double_snake (A B : Ob) :
  transpose (Id [A; B]) false =
  Ok (mkDiagram
        [mkLayer [] (MkCap [Ob_r B] [B]) [Ob_r B; Ob_r A];
         mkLayer [Ob_r B] (MkCap [Ob_r A] [A]) [B; Ob_r B; Ob_r A];
         mkLayer [Ob_r B; Ob_r A; A] (MkCup [B] [Ob_r B]) [Ob_r A];
         mkLayer [Ob_r B; Ob_r A] (MkCup [A] [Ob_r A]) []]
        [Ob_r B; Ob_r A] [Ob_r B; Ob_r A]).
Proof.
  unfold transpose. cbn [Id dom cod].
  change (Ty_r [A; B]) with [Ob_r B; Ob_r A].
  rewrite caps_pair by apply adjoints_r_Ob.
  cbn [bind]. rewrite compose_Ok by reflexivity.
  cbn [bind]. rewrite cups_pair by apply adjoints_Ob_r.
  cbn [bind]. rewrite compose_Ok by reflexivity.
  reflexivity.
Qed.

(** [Id(t).transpose()] for [t] of length one. *)
Lemma one_snake (o : Ob) :
  transpose (Id [o]) false =
  Ok (mkDiagram
        [mkLayer [] (MkCap [Ob_r o] [o]) [Ob_r o];
         mkLayer [Ob_r o] (MkCup [o] [Ob_r o]) []]
        [Ob_r o] [Ob_r o]).
Proof.
  unfold transpose. cbn [Id dom cod].
  rewrite Ty_r_singleton, caps_atomic by apply adjoints_r_Ob.
  cbn [bind]. rewrite compose_Ok by reflexivity.
  cbn [bind]. rewrite cups_atomic by apply adjoints_Ob_r.
  cbn [bind]. rewrite compose_Ok by reflexivity.
  reflexivity.
Qed.

(** [Id(A @ B).transpose()] and [Id(B).transpose() @ Id(A).transpose()] are
    different diagrams: their second layers are a cap and a cup. *)
Lemma double_snake_is_not_two_snakes (A B : Ob) :
  transpose (Id [A; B]) false <>
  (f <- transpose (Id [B]) false ;; g <- transpose (Id [A]) false ;; Ok (f @@ g)).
Proof.
  rewrite double_snake, !one_snake. cbn. intros E. inversion E.
Qed.

(** ** Adjoints of tensors, and adjoints that come back *)

(** X1: the adjoint of a tensor is the tensor of the adjoints in reverse
    order, [(s @ n).l == n.l @ s.l] and [(s @ n).r == n.r @ s.r]; the
    adjoint of the unit is the unit and adjoints keep the length. *)
Theorem Ty_adjoint_of_tensor (s t : Ty) :
  Ty_l (s ++ t) = Ty_l t ++ Ty_l s
  /\ Ty_r (s ++ t) = Ty_r t ++ Ty_r s
  /\ Ty_l [] = [] /\ Ty_r [] = []
  /\ len (Ty_l s) = len s /\ len (Ty_r s) = len s.
Proof.
  unfold len. rewrite Ty_l_length, Ty_r_length.
  repeat split; [apply Ty_l_app | apply Ty_r_app].
Qed.

Lemma Ob_iter_l (n : nat) (x : Ob) :
  Nat.iter n Ob_l x = mkOb (Ob_name x) (Ob_z x - Z.of_nat n).
Proof.
  induction n as [|n IH].
  - destruct x; simpl; f_equal; lia.
  - rewrite Nat.iter_succ, IH. unfold Ob_l; simpl Ob_name; simpl Ob_z.
    f_equal; lia.
Qed.

Lemma Ob_iter_r (n : nat) (x : Ob) :
  Nat.iter n Ob_r x = mkOb (Ob_name x) (Ob_z x + Z.of_nat n).
Proof.
  induction n as [|n IH].
  - destruct x; simpl; f_equal; lia.
  - rewrite Nat.iter_succ, IH. unfold Ob_r; simpl Ob_name; simpl Ob_z.
    f_equal; lia.
Qed.

(** The sum of the winding numbers of a type. *)
Lemma winding_app (s t : Ty) :
  list_sum_z (s ++ t) = list_sum_z s + list_sum_z t.
Proof. induction s as [|a s IH]; simpl; [reflexivity | rewrite IH; lia]. Qed.

Lemma winding_rev (t : Ty) : list_sum_z (rev t) = list_sum_z t.
Proof.
  induction t as [|a t IH]; simpl; [reflexivity|].
  rewrite winding_app, IH. simpl. lia.
Qed.

Lemma winding_map_l (u : Ty) :
  list_sum_z (map Ob_l u) = list_sum_z u - len u.
Proof.
  unfold len. induction u as [|a u IH]; [reflexivity|].
  cbn [map list_sum_z List.length]. rewrite IH. unfold Ob_l; simpl Ob_z. lia.
Qed.

Lemma winding_map_r (u : Ty) :
  list_sum_z (map Ob_r u) = list_sum_z u + len u.
Proof.
  unfold len. induction u as [|a u IH]; [reflexivity|].
  cbn [map list_sum_z List.length]. rewrite IH. unfold Ob_r; simpl Ob_z. lia.
Qed.

Lemma winding_l (t : Ty) : list_sum_z (Ty_l t) = list_sum_z t - len t.
Proof.
  unfold Ty_l. rewrite winding_map_l, winding_rev. unfold len.
  rewrite length_rev. reflexivity.
Qed.

Lemma winding_r (t : Ty) : list_sum_z (Ty_r t) = list_sum_z t + len t.
Proof.
  unfold Ty_r. rewrite winding_map_r, winding_rev. unfold len.
  rewrite length_rev. reflexivity.
Qed.

(** X2: taking [n] left adjoints and [m] right adjoints of an object gives
    the object back exactly when [n = m], so that [a != a.l.l] and
    [a != a.r.r].  An instance of [Ty] proper, whose adjoints are those of
    [Ty.l] and [Ty.r], is its own left or right adjoint only when it is the
    unit; an instance of the subclass [PRO], whose [l] and [r] return
    [self], always is: among the rigid types, those that are their own
    adjoint are the unit and the instances of [PRO]. *)
Theorem adjoints_come_back_iff (x : Ob) (t : Ty) (p : PRO) (y : rigid_type)
        (n m : nat) :
  (Nat.iter n Ob_l (Nat.iter m Ob_r x) = x <-> n = m)
  /\ (Ob_eqb (Ob_l (Ob_l x)) x = false /\ Ob_eqb (Ob_r (Ob_r x)) x = false)
  /\ (Ty_l t = t <-> t = [])
  /\ (Ty_r t = t <-> t = [])
  /\ (PRO_l p = p /\ PRO_r p = p)
  /\ (rigid_type_l y = y <-> y = of_Ty [] \/ exists q, y = of_PRO q)
  /\ (rigid_type_r y = y <-> y = of_Ty [] \/ exists q, y = of_PRO q).
Proof.
  assert (N : forall u : Ty, len u = 0 -> u = [])
    by (intros [|? ?]; unfold len; simpl; [reflexivity | lia]).
  assert (L : forall u : Ty, Ty_l u = u <-> u = []).
  { intros u. split; [|intros ->; reflexivity].
    intros E. apply N. pose proof (winding_l u) as W. rewrite E in W. lia. }
  assert (R : forall u : Ty, Ty_r u = u <-> u = []).
  { intros u. split; [|intros ->; reflexivity].
    intros E. apply N. pose proof (winding_r u) as W. rewrite E in W. lia. }
  refine (conj _ (conj (conj _ _) (conj (L t) (conj (R t)
            (conj (conj eq_refl eq_refl) (conj _ _)))))).
  - rewrite Ob_iter_l, Ob_iter_r. simpl. destruct x as [name z]; simpl.
    split; [intros E; inversion E; lia | intros ->; f_equal; lia].
  - destruct (Ob_eqb (Ob_l (Ob_l x)) x) eqn:E; [|reflexivity].
    apply Ob_eqb_eq in E. destruct x; inversion E; lia.
  - destruct (Ob_eqb (Ob_r (Ob_r x)) x) eqn:E; [|reflexivity].
    apply Ob_eqb_eq in E. destruct x; inversion E; lia.
  - destruct y as [u|q]; cbn [rigid_type_l PRO_l].
    + split.
      * intros E. left. f_equal. apply L. congruence.
      * intros [E|[q E]]; [|discriminate].
        inversion E. reflexivity.
    + split; [intros _; right; exists q; reflexivity | reflexivity].
  - destruct y as [u|q]; cbn [rigid_type_r PRO_r].
    + split.
      * intros E. left. f_equal. apply R. congruence.
      * intros [E|[q E]]; [|discriminate].
        inversion E. reflexivity.
    + split; [intros _; right; exists q; reflexivity | reflexivity].
Qed.

(** ** When nested cups and caps are defined *)

Lemma nesting_nil (factory : Ty -> Ty -> result Box) (y : Ty) :
  nesting factory [] y = Ok (Id []).
Proof. reflexivity. Qed.

Lemma item_nil (i : Z) : item [] i = Raise IndexError.
Proof.
  unfold item, len. simpl List.length.
  destruct (i <? 0) eqn:E.
  - replace (i + Z.of_nat 0 <? 0) with true
      by (symmetry; apply Z.ltb_lt; apply Z.ltb_lt in E; lia).
    reflexivity.
  - replace (Z.of_nat 0 <=? i) with true
      by (symmetry; apply Z.leb_le; apply Z.ltb_ge in E; lia).
    rewrite orb_true_r. reflexivity.
Qed.

(** Nested cups on [x] and [y]: the objects of [x] in order are adjoint to
    the objects of [y] in reverse order. *)
Lemma cups_Ok_matched (x y : Ty) (d : Diagram) :
  x <> [] -> cups x y = Ok d -> Forall2 adjoints x (rev y).
Proof.
  revert y d. induction x as [|a x IH]; intros y d Hx E; [congruence|].
  destruct x as [|b x].
  - unfold cups in E; simpl nesting in E.
    destruct (Cup [a] y) as [box|e] eqn:C; [|discriminate].
    destruct (Cup_Ok_inv _ _ _ C) as (x0 & y0 & Hx0 & -> & A & _).
    inversion Hx0; subst. simpl. constructor; [exact A | constructor].
  - destruct (exists_last (l := y)) as (y' & c & ->).
    { intros ->. unfold cups in E. rewrite nesting_cons2, item_0, item_nil in E.
      discriminate. }
    rewrite cups_cons2 in E.
    destruct (Cup [a] [c]) as [head|e] eqn:C; [|discriminate].
    destruct (cups (b :: x) y') as [inner|e] eqn:I; [|discriminate].
    destruct (Cup_Ok_inv _ _ _ C) as (x0 & y0 & Hx0 & Hy0 & A & _).
    inversion Hx0; inversion Hy0; subst.
    rewrite rev_app_distr. simpl. constructor; [exact A|].
    apply (IH y' inner); [discriminate | exact I].
Qed.

Lemma caps_Ok_matched (x y : Ty) (d : Diagram) :
  x <> [] -> caps x y = Ok d -> Forall2 adjoints x (rev y).
Proof.
  revert y d. induction x as [|a x IH]; intros y d Hx E; [congruence|].
  destruct x as [|b x].
  - unfold caps in E; simpl nesting in E.
    destruct (Cap [a] y) as [box|e] eqn:C; [|discriminate].
    destruct (Cap_Ok_inv _ _ _ C) as (x0 & y0 & Hx0 & -> & A & _).
    inversion Hx0; subst. simpl. constructor; [exact A | constructor].
  - destruct (exists_last (l := y)) as (y' & c & ->).
    { intros ->. unfold caps in E. rewrite nesting_cons2, item_0, item_nil in E.
      discriminate. }
    rewrite caps_cons2 in E.
    destruct (Cap [a] [c]) as [head|e] eqn:C; [|discriminate].
    destruct (caps (b :: x) y') as [inner|e] eqn:I; [|discriminate].
    destruct (Cap_Ok_inv _ _ _ C) as (x0 & y0 & Hx0 & Hy0 & A & _).
    inversion Hx0; inversion Hy0; subst.
    rewrite rev_app_distr. simpl. constructor; [exact A|].
    apply (IH y' inner); [discriminate | exact I].
Qed.

Lemma rev_eq_nil {A : Type} (y : list A) : [] = rev y -> y = [].
Proof.
  intros E. apply (f_equal (@rev A)) in E. rewrite rev_involutive in E.
  symmetry; exact E.
Qed.

Lemma Forall2_nil_rev (y : Ty) : Forall2 adjoints [] (rev y) -> y = [].
Proof.
  intros H. apply rev_eq_nil. inversion H; auto.
Qed.

Lemma Forall2_rev_last (x : Ty) (a : Ob) (y : Ty) :
  Forall2 adjoints (a :: x) (rev y) ->
  exists y' c, y = y' ++ [c] /\ adjoints a c /\ Forall2 adjoints x (rev y').
Proof.
  intros H. inversion H as [|a' c x' r A F E1 E2]; subst.
  apply (f_equal (@rev Ob)) in E2. rewrite rev_involutive in E2. simpl in E2.
  exists (rev r), c. rewrite rev_involutive. repeat split; auto.
Qed.

Lemma cups_matched_Ok (x y : Ty) :
  Forall2 adjoints x (rev y) ->
  exists d, cups x y = Ok d
            /\ dom d = x ++ y /\ cod d = []
            /\ List.length (inside d) = List.length x.
Proof.
  revert y. induction x as [|a x IH]; intros y H.
  - apply Forall2_nil_rev in H; subst y.
    exists (Id []). repeat split.
  - destruct (Forall2_rev_last _ _ _ H) as (y' & c & -> & A & F).
    destruct x as [|b x].
    + apply Forall2_nil_rev in F; subst y'.
      exists (of_box (MkCup [a] [c])). split; [|repeat split].
      apply cups_atomic, A.
    + destruct (IH y' F) as (inner & E & Hdom & Hcod & Hlen).
      rewrite cups_cons2, (Cup_adjoints _ _ A), E.
      simpl bind. rewrite compose_Ok.
      * eexists; split; [reflexivity|]. simpl dom. simpl cod. simpl inside.
        rewrite Hdom. repeat split.
        -- simpl. rewrite <- !app_assoc. reflexivity.
        -- rewrite length_app, length_app, !length_map. simpl in *. lia.
      * simpl. rewrite Hcod. reflexivity.
Qed.

Lemma caps_matched_Ok (x y : Ty) :
  Forall2 adjoints x (rev y) ->
  exists d, caps x y = Ok d
            /\ dom d = [] /\ cod d = x ++ y
            /\ List.length (inside d) = List.length x.
Proof.
  revert y. induction x as [|a x IH]; intros y H.
  - apply Forall2_nil_rev in H; subst y.
    exists (Id []). repeat split.
  - destruct (Forall2_rev_last _ _ _ H) as (y' & c & -> & A & F).
    destruct x as [|b x].
    + apply Forall2_nil_rev in F; subst y'.
      exists (of_box (MkCap [a] [c])). split; [|repeat split].
      apply caps_atomic, A.
    + destruct (IH y' F) as (inner & E & Hdom & Hcod & Hlen).
      rewrite caps_cons2, (Cap_adjoints _ _ A), E.
      simpl bind. rewrite compose_Ok.
      * eexists; split; [reflexivity|]. simpl dom. simpl cod. simpl inside.
        rewrite Hcod. repeat split.
        -- simpl. rewrite <- !app_assoc. reflexivity.
        -- simpl. rewrite app_nil_r, !length_map. simpl in Hlen. lia.
      * simpl. rewrite Hdom. reflexivity.
Qed.

(** X3: [cups(x, y)] and [caps(x, y)] on a type [x] that is not the unit
    are defined if and only if the objects of [x], in order, are adjoint to
    the objects of [y] in reverse order (so the two types have the same
    length); on the unit they return the identity of the unit whatever [y]
    is. *)
Theorem nesting_defined_iff (a : Ob) (x y : Ty) :
  ((exists d, cups (a :: x) y = Ok d) <-> Forall2 adjoints (a :: x) (rev y))
  /\ ((exists d, caps (a :: x) y = Ok d) <-> Forall2 adjoints (a :: x) (rev y))
  /\ cups [] y = Ok (Id [])
  /\ caps [] y = Ok (Id []).
Proof.
  refine (conj (conj _ _) (conj (conj _ _) (conj _ _))); try reflexivity.
  - intros [d E]. apply (cups_Ok_matched _ _ d); [discriminate | exact E].
  - intros F. destruct (cups_matched_Ok _ _ F) as (d & E & _). eauto.
  - intros [d E]. apply (caps_Ok_matched _ _ d); [discriminate | exact E].
  - intros F. destruct (caps_matched_Ok _ _ F) as (d & E & _). eauto.
Qed.

(** X4: when [cups(x, y)] is defined on a type [x] that is not the unit,
    so is [caps(x, y)]; the cups have [len(x)] layers and go from [x @ y]
    to the unit, the caps have [len(x)] layers and go from the unit to
    [x @ y]. *)
Theorem nesting_boundary (x y : Ty) (d : Diagram)
        (Hx : x <> []) (E : cups x y = Ok d) :
  (dom d = x ++ y /\ cod d = [] /\ len (inside d) = len x)
  /\ exists d', caps x y = Ok d'
                /\ dom d' = [] /\ cod d' = x ++ y /\ len (inside d') = len x.
Proof.
  pose proof (cups_Ok_matched _ _ _ Hx E) as F.
  destruct (cups_matched_Ok _ _ F) as (d1 & E1 & H1 & H2 & H3).
  destruct (caps_matched_Ok _ _ F) as (d2 & E2 & K1 & K2 & K3).
  rewrite E in E1; inversion E1; subst d1.
  unfold len. rewrite H3. split; [auto|].
  exists d2. rewrite K3. auto.
Qed.

Lemma nesting_boundary_witness :
  [ob_n; ob_s] <> []
  /\ cups [ob_n; ob_s] (Ty_r [ob_n; ob_s]) =
     Ok (mkDiagram
           [mkLayer [ob_n] (MkCup [ob_s] [Ob_r ob_s]) [Ob_r ob_n];
            mkLayer [] (MkCup [ob_n] [Ob_r ob_n]) []]
           [ob_n; ob_s; Ob_r ob_s; Ob_r ob_n] [])
  /\ exists d', caps [ob_n; ob_s] (Ty_r [ob_n; ob_s]) = Ok d'
                /\ len (inside d') = 2.
Proof.
  assert (Hx : [ob_n; ob_s] <> []) by discriminate.
  split; [exact Hx|]. split; [reflexivity|].
  destruct (nesting_boundary [ob_n; ob_s] (Ty_r [ob_n; ob_s]) _ Hx eq_refl)
    as (_ & d' & E & _ & _ & L).
  exists d'. split; [exact E | exact L].
Defined.

(** ** Layers that follow one another *)

Lemma chain_app (t u t' : Ty) (l1 l2 : list Layer) :
  chain t l1 u -> chain u l2 t' -> chain t (l1 ++ l2) t'.
Proof.
  revert t. induction l1 as [|x l1 IH]; intros t; simpl.
  - intros ->; auto.
  - intros [E H] K. split; [exact E | apply IH; assumption].
Qed.

Lemma Layer_dom_whisker (l r : Ty) (x : Layer) :
  Layer_dom (whisker l r x) = l ++ Layer_dom x ++ r.
Proof. unfold Layer_dom, whisker; simpl. rewrite <- !app_assoc. reflexivity. Qed.

Lemma Layer_cod_whisker (l r : Ty) (x : Layer) :
  Layer_cod (whisker l r x) = l ++ Layer_cod x ++ r.
Proof. unfold Layer_cod, whisker; simpl. rewrite <- !app_assoc. reflexivity. Qed.

Lemma chain_whisker (l r t t' : Ty) (layers : list Layer) :
  chain t layers t' ->
  chain (l ++ t ++ r) (map (whisker l r) layers) (l ++ t' ++ r).
Proof.
  revert t. induction layers as [|x layers IH]; intros t; simpl.
  - intros ->; reflexivity.
  - intros [-> H]. split; [symmetry; apply Layer_dom_whisker|].
    rewrite Layer_cod_whisker. apply IH, H.
Qed.

Lemma well_typed_Id (t : Ty) : well_typed (Id t).
Proof. reflexivity. Qed.

Lemma well_typed_of_box (b : Box) : well_typed (of_box b).
Proof.
  unfold well_typed, of_box. cbn [dom cod inside chain].
  unfold Layer_dom, Layer_cod. cbn [Layer_left Layer_right Layer_box app].
  rewrite !app_nil_r. auto.
Qed.

Lemma well_typed_compose (f g h : Diagram) :
  well_typed f -> well_typed g -> f >> g = Ok h -> well_typed h.
Proof.
  unfold compose. intros Hf Hg.
  destruct (Ty_eqb (cod f) (dom g)) eqn:E; [|discriminate].
  apply Ty_eqb_eq in E. intros K; inversion K; subst h.
  unfold well_typed; simpl. eapply chain_app; [exact Hf|].
  rewrite E. exact Hg.
Qed.

Lemma well_typed_tensor (f g : Diagram) :
  well_typed f -> well_typed g -> well_typed (f @@ g).
Proof.
  intros Hf Hg. unfold well_typed, tensor; simpl.
  apply (chain_app _ (cod f ++ dom g)).
  - apply (chain_whisker [] (dom g)) in Hf. exact Hf.
  - apply (chain_whisker (cod f) []) in Hg. rewrite !app_nil_r in Hg. exact Hg.
Qed.

Lemma cups_well_typed (x y : Ty) (d : Diagram) :
  cups x y = Ok d -> well_typed d.
Proof.
  revert y d. induction x as [|a x IH]; intros y d E.
  - inversion E. apply well_typed_Id.
  - destruct x as [|b x].
    + unfold cups in E; simpl nesting in E.
      destruct (Cup [a] y); [|discriminate]. inversion E. apply well_typed_of_box.
    + destruct (exists_last (l := y)) as (y' & c & ->).
      { intros ->. unfold cups in E. rewrite nesting_cons2, item_0, item_nil in E.
        discriminate. }
      rewrite cups_cons2 in E.
      destruct (Cup [a] [c]) as [head|e]; [|discriminate].
      destruct (cups (b :: x) y') as [inner|e] eqn:I; [|discriminate].
      simpl bind in E. eapply well_typed_compose; [| |exact E].
      * repeat apply well_typed_tensor; try apply well_typed_Id. apply (IH y'), I.
      * apply well_typed_of_box.
Qed.

Lemma caps_well_typed (x y : Ty) (d : Diagram) :
  caps x y = Ok d -> well_typed d.
Proof.
  revert y d. induction x as [|a x IH]; intros y d E.
  - inversion E. apply well_typed_Id.
  - destruct x as [|b x].
    + unfold caps in E; simpl nesting in E.
      destruct (Cap [a] y); [|discriminate]. inversion E. apply well_typed_of_box.
    + destruct (exists_last (l := y)) as (y' & c & ->).
      { intros ->. unfold caps in E. rewrite nesting_cons2, item_0, item_nil in E.
        discriminate. }
      rewrite caps_cons2 in E.
      destruct (Cap [a] [c]) as [head|e]; [|discriminate].
      destruct (caps (b :: x) y') as [inner|e] eqn:I; [|discriminate].
      simpl bind in E. eapply well_typed_compose; [| |exact E].
      * apply well_typed_of_box.
      * repeat apply well_typed_tensor; try apply well_typed_Id. apply (IH y'), I.
Qed.

(** ** Transposition is defined on every diagram *)

Lemma matched_map_l (t : Ty) : Forall2 adjoints t (map Ob_l t).
Proof. induction t; constructor; [apply adjoints_Ob_l | assumption]. Qed.

Lemma matched_map_r (t : Ty) : Forall2 adjoints t (map Ob_r t).
Proof. induction t; constructor; [apply adjoints_Ob_r | assumption]. Qed.

Lemma matched_l_map (t : Ty) : Forall2 adjoints (map Ob_l t) t.
Proof. induction t; constructor; [apply adjoints_l_Ob | assumption]. Qed.

Lemma matched_r_map (t : Ty) : Forall2 adjoints (map Ob_r t) t.
Proof. induction t; constructor; [apply adjoints_r_Ob | assumption]. Qed.

Lemma matched_Ty_l (t : Ty) : Forall2 adjoints t (rev (Ty_l t)).
Proof. unfold Ty_l. rewrite <- map_rev, rev_involutive. apply matched_map_l. Qed.

Lemma matched_Ty_r (t : Ty) : Forall2 adjoints t (rev (Ty_r t)).
Proof. unfold Ty_r. rewrite <- map_rev, rev_involutive. apply matched_map_r. Qed.

Lemma matched_l_Ty (t : Ty) : Forall2 adjoints (Ty_l t) (rev t).
Proof. unfold Ty_l. apply matched_l_map. Qed.

Lemma matched_r_Ty (t : Ty) : Forall2 adjoints (Ty_r t) (rev t).
Proof. unfold Ty_r. apply matched_r_map. Qed.

Lemma transpose_left_Ok (d : Diagram) :
  exists bend close,
    caps (dom d) (Ty_l (dom d)) = Ok bend
    /\ cups (Ty_l (cod d)) (cod d) = Ok close
    /\ List.length (inside bend) = List.length (dom d)
    /\ List.length (inside close) = List.length (cod d)
    /\ transpose d true =
       Ok (mkDiagram
             ((inside (Id (Ty_l (cod d)) @@ bend)
               ++ inside (Id (Ty_l (cod d)) @@ d @@ Id (Ty_l (dom d))))
              ++ inside (close @@ Id (Ty_l (dom d))))
             (Ty_l (cod d) ++ []) ([] ++ Ty_l (dom d))).
Proof.
  destruct (caps_matched_Ok _ _ (matched_Ty_l (dom d))) as (bend & E1 & B1 & B2 & B3).
  destruct (cups_matched_Ok _ _ (matched_l_Ty (cod d))) as (close & E2 & C1 & C2 & C3).
  exists bend, close. rewrite Ty_l_length in C3.
  repeat (split; [assumption|]).
  unfold transpose. rewrite E1. cbn [bind]. rewrite compose_Ok.
  - cbn [bind]. rewrite E2. cbn [bind]. rewrite compose_Ok.
    + simpl. rewrite B1, C2. reflexivity.
    + simpl. rewrite C1. reflexivity.
  - simpl. rewrite B2, <- !app_assoc. reflexivity.
Qed.

Lemma transpose_right_Ok (d : Diagram) :
  exists bend close,
    caps (Ty_r (dom d)) (dom d) = Ok bend
    /\ cups (cod d) (Ty_r (cod d)) = Ok close
    /\ List.length (inside bend) = List.length (dom d)
    /\ List.length (inside close) = List.length (cod d)
    /\ transpose d false =
       Ok (mkDiagram
             ((inside (bend @@ Id (Ty_r (cod d)))
               ++ inside (Id (Ty_r (dom d)) @@ d @@ Id (Ty_r (cod d))))
              ++ inside (Id (Ty_r (dom d)) @@ close))
             ([] ++ Ty_r (cod d)) (Ty_r (dom d) ++ [])).
Proof.
  destruct (caps_matched_Ok _ _ (matched_r_Ty (dom d))) as (bend & E1 & B1 & B2 & B3).
  destruct (cups_matched_Ok _ _ (matched_Ty_r (cod d))) as (close & E2 & C1 & C2 & C3).
  exists bend, close. rewrite Ty_r_length in B3.
  repeat (split; [assumption|]).
  unfold transpose. rewrite E1. cbn [bind]. rewrite compose_Ok.
  - cbn [bind]. rewrite E2. cbn [bind]. rewrite compose_Ok.
    + simpl. rewrite B1, C2. reflexivity.
    + simpl. rewrite C1, <- !app_assoc. reflexivity.
  - simpl. rewrite B2. reflexivity.
Qed.

(** X5: [transpose] is defined on every diagram: with [left] it goes from
    [cod.l] to [dom.l], without it from [cod.r] to [dom.r], and it has
    [len(dom) + len(d) + len(cod)] layers, the caps on the domain, the
    layers of the diagram and the cups on the codomain. *)
Theorem transpose_defined (d : Diagram) :
  (exists t, transpose d true = Ok t
             /\ dom t = Ty_l (cod d) /\ cod t = Ty_l (dom d)
             /\ len (inside t) = len (dom d) + len (inside d) + len (cod d))
  /\ (exists t, transpose d false = Ok t
                /\ dom t = Ty_r (cod d) /\ cod t = Ty_r (dom d)
                /\ len (inside t) = len (dom d) + len (inside d) + len (cod d)).
Proof.
  split.
  - destruct (transpose_left_Ok d) as (bend & close & _ & _ & B & C & E).
    eexists; split; [exact E|]. cbn [dom cod inside]. rewrite app_nil_r.
    repeat split. unfold len, tensor; cbn [inside Id map app].
    rewrite !length_app, !length_map, B, C. simpl. lia.
  - destruct (transpose_right_Ok d) as (bend & close & _ & _ & B & C & E).
    eexists; split; [exact E|]. cbn [dom cod inside]. rewrite app_nil_r.
    repeat split. unfold len, tensor; cbn [inside Id map app].
    rewrite !length_app, !length_map, B, C. simpl. lia.
Qed.

(** ** Operations that keep the layers in line *)

Lemma transpose_well_typed (d t : Diagram) (left : bool) :
  well_typed d -> transpose d left = Ok t -> well_typed t.
Proof.
  intros Hw. unfold transpose. destruct left.
  - destruct (caps (dom d) (Ty_l (dom d))) as [bend|] eqn:E1; [|discriminate].
    cbn [bind].
    destruct (Id (Ty_l (cod d)) @@ bend
              >> Id (Ty_l (cod d)) @@ d @@ Id (Ty_l (dom d))) as [top|] eqn:E2;
      [|discriminate].
    cbn [bind].
    destruct (cups (Ty_l (cod d)) (cod d)) as [close|] eqn:E3; [|discriminate].
    cbn [bind]. intros E4.
    apply caps_well_typed in E1. apply cups_well_typed in E3.
    eapply well_typed_compose; [| |exact E4].
    + eapply well_typed_compose; [| |exact E2];
        repeat apply well_typed_tensor; auto using well_typed_Id.
    + apply well_typed_tensor; auto using well_typed_Id.
  - destruct (caps (Ty_r (dom d)) (dom d)) as [bend|] eqn:E1; [|discriminate].
    cbn [bind].
    destruct (bend @@ Id (Ty_r (cod d))
              >> Id (Ty_r (dom d)) @@ d @@ Id (Ty_r (cod d))) as [top|] eqn:E2;
      [|discriminate].
    cbn [bind].
    destruct (cups (cod d) (Ty_r (cod d))) as [close|] eqn:E3; [|discriminate].
    cbn [bind]. intros E4.
    apply caps_well_typed in E1. apply cups_well_typed in E3.
    eapply well_typed_compose; [| |exact E4].
    + eapply well_typed_compose; [| |exact E2];
        repeat apply well_typed_tensor; auto using well_typed_Id.
    + apply well_typed_tensor; auto using well_typed_Id.
Qed.

Lemma curry_well_typed (d t : Diagram) (n : Z) (left : bool) :
  well_typed d -> curry d n left = Ok t -> well_typed t.
Proof.
  intros Hw. unfold curry. destruct left; cbv zeta.
  - destruct (caps _ _) as [bend|] eqn:E1; [|discriminate].
    cbn [bind]. intros E2. apply caps_well_typed in E1.
    eapply well_typed_compose; [| |exact E2];
      repeat apply well_typed_tensor; auto using well_typed_Id.
  - destruct (caps _ _) as [bend|] eqn:E1; [|discriminate].
    cbn [bind]. intros E2. apply caps_well_typed in E1.
    eapply well_typed_compose; [| |exact E2];
      repeat apply well_typed_tensor; auto using well_typed_Id.
Qed.

(** X6: the nested cups and caps are diagrams whose layers follow one
    another from the domain to the codomain, and so are the transposes and
    the curried forms of a diagram whose layers do. *)
Theorem well_typed_kept (d : Diagram) (x y : Ty) (n : Z) (left : bool)
        (Hw : well_typed d) :
  (forall c, cups x y = Ok c -> well_typed c)
  /\ (forall c, caps x y = Ok c -> well_typed c)
  /\ (exists t, transpose d left = Ok t /\ well_typed t)
  /\ (forall t, curry d n left = Ok t -> well_typed t).
Proof.
  refine (conj _ (conj _ (conj _ _))).
  - intros c. apply cups_well_typed.
  - intros c. apply caps_well_typed.
  - destruct left.
    + destruct (transpose_left_Ok d) as (? & ? & _ & _ & _ & _ & E).
      eexists; split; [exact E|]. eapply transpose_well_typed; eassumption.
    + destruct (transpose_right_Ok d) as (? & ? & _ & _ & _ & _ & E).
      eexists; split; [exact E|]. eapply transpose_well_typed; eassumption.
  - intros t. apply curry_well_typed, Hw.
Qed.

Lemma well_typed_kept_witness :
  well_typed sentence
  /\ exists t, transpose sentence false = Ok t /\ well_typed t.
Proof.
  assert (Hw : well_typed sentence) by (repeat split).
  split; [exact Hw|].
  exact (proj1 (proj2 (proj2 (well_typed_kept sentence [] [] 0 false Hw)))).
Defined.

(** The adjoint of a box goes between the adjoints of its types. *)
Lemma Box_l_dom_cod (b b' : Box) :
  Box_l b = Ok b' ->
  Box_dom b' = Ty_l (Box_dom b) /\ Box_cod b' = Ty_l (Box_cod b).
Proof.
  destruct b as [name d c data z | l r | l r]; simpl; intros E.
  - inversion E; auto.
  - destruct (Cup_Ok_inv _ _ _ E) as (x & y & Hx & Hy & _ & ->). simpl.
    rewrite Ty_l_app, Hx, Hy. auto.
  - destruct (Cap_Ok_inv _ _ _ E) as (x & y & Hx & Hy & _ & ->). simpl.
    rewrite Ty_l_app, Hx, Hy. auto.
Qed.

Lemma Box_r_dom_cod (b b' : Box) :
  Box_r b = Ok b' ->
  Box_dom b' = Ty_r (Box_dom b) /\ Box_cod b' = Ty_r (Box_cod b).
Proof.
  destruct b as [name d c data z | l r | l r]; simpl; intros E.
  - inversion E; auto.
  - destruct (Cup_Ok_inv _ _ _ E) as (x & y & Hx & Hy & _ & ->). simpl.
    rewrite Ty_r_app, Hx, Hy. auto.
  - destruct (Cap_Ok_inv _ _ _ E) as (x & y & Hx & Hy & _ & ->). simpl.
    rewrite Ty_r_app, Hx, Hy. auto.
Qed.

Lemma Layer_l_dom_cod (x x' : Layer) :
  Layer_l x = Ok x' ->
  Layer_dom x' = Ty_l (Layer_dom x) /\ Layer_cod x' = Ty_l (Layer_cod x).
Proof.
  unfold Layer_l. destruct (Box_l (Layer_box x)) as [b'|] eqn:E; [|discriminate].
  cbn [bind]. intros K; inversion K; subst x'.
  destruct (Box_l_dom_cod _ _ E) as [D C].
  unfold Layer_dom, Layer_cod; simpl. rewrite D, C, !Ty_l_app, <- !app_assoc. auto.
Qed.

Lemma Layer_r_dom_cod (x x' : Layer) :
  Layer_r x = Ok x' ->
  Layer_dom x' = Ty_r (Layer_dom x) /\ Layer_cod x' = Ty_r (Layer_cod x).
Proof.
  unfold Layer_r. destruct (Box_r (Layer_box x)) as [b'|] eqn:E; [|discriminate].
  cbn [bind]. intros K; inversion K; subst x'.
  destruct (Box_r_dom_cod _ _ E) as [D C].
  unfold Layer_dom, Layer_cod; simpl. rewrite D, C, !Ty_r_app, <- !app_assoc. auto.
Qed.

Lemma chain_Layer_l (t t' : Ty) (layers layers' : list Layer) :
  chain t layers t' -> mapM Layer_l layers = Ok layers' ->
  chain (Ty_l t) layers' (Ty_l t') /\ List.length layers' = List.length layers.
Proof.
  revert t layers'. induction layers as [|x layers IH]; intros t layers'; simpl.
  - intros -> K; inversion K; simpl; auto.
  - intros [-> H]. destruct (Layer_l x) as [x'|] eqn:E; [|discriminate].
    cbn [bind]. destruct (mapM Layer_l layers) as [ls|] eqn:M; [|discriminate].
    cbn [bind]. intros K; inversion K; subst layers'.
    destruct (Layer_l_dom_cod _ _ E) as [D C].
    destruct (IH _ _ H eq_refl) as [IH1 IH2]. simpl. rewrite D, C, IH2. auto.
Qed.

Lemma chain_Layer_r (t t' : Ty) (layers layers' : list Layer) :
  chain t layers t' -> mapM Layer_r layers = Ok layers' ->
  chain (Ty_r t) layers' (Ty_r t') /\ List.length layers' = List.length layers.
Proof.
  revert t layers'. induction layers as [|x layers IH]; intros t layers'; simpl.
  - intros -> K; inversion K; simpl; auto.
  - intros [-> H]. destruct (Layer_r x) as [x'|] eqn:E; [|discriminate].
    cbn [bind]. destruct (mapM Layer_r layers) as [ls|] eqn:M; [|discriminate].
    cbn [bind]. intros K; inversion K; subst layers'.
    destruct (Layer_r_dom_cod _ _ E) as [D C].
    destruct (IH _ _ H eq_refl) as [IH1 IH2]. simpl. rewrite D, C, IH2. auto.
Qed.

(** X7: the conjugates [d.l] and [d.r] of a diagram whose layers follow one
    another are defined, have as many layers, in the same order, and their
    layers follow one another from [dom.l] to [cod.l] and from [dom.r] to
    [cod.r]. *)
Theorem conjugate_well_typed (d : Diagram)
        (Hw : well_typed d) (Hb : wf_diagram d = true) :
  (exists dl, Diagram_l d = Ok dl
              /\ dom dl = Ty_l (dom d) /\ cod dl = Ty_l (cod d)
              /\ len (inside dl) = len (inside d) /\ well_typed dl)
  /\ (exists dr, Diagram_r d = Ok dr
                 /\ dom dr = Ty_r (dom d) /\ cod dr = Ty_r (cod d)
                 /\ len (inside dr) = len (inside d) /\ well_typed dr).
Proof.
  pose proof (wf_diagram_Forall _ Hb) as W. split.
  - destruct (mapM_inverse Layer_l Layer_r _ _ Layer_l_Ok W) as (ls & E & _).
    destruct (chain_Layer_l _ _ _ _ Hw E) as [C L].
    rewrite Diagram_l_eq, E. cbn [bind]. eexists; split; [reflexivity|].
    unfold well_typed, len; cbn [dom cod inside]. rewrite L. auto.
  - destruct (mapM_inverse Layer_r Layer_l _ _ Layer_r_Ok W) as (ls & E & _).
    destruct (chain_Layer_r _ _ _ _ Hw E) as [C L].
    rewrite Diagram_r_eq, E. cbn [bind]. eexists; split; [reflexivity|].
    unfold well_typed, len; cbn [dom cod inside]. rewrite L. auto.
Qed.

Lemma conjugate_well_typed_witness :
  well_typed sentence /\ wf_diagram sentence = true
  /\ exists dl, Diagram_l sentence = Ok dl /\ well_typed dl.
Proof.
  assert (Hw : well_typed sentence) by (repeat split).
  split; [exact Hw|]. split; [reflexivity|].
  destruct (conjugate_well_typed sentence Hw eq_refl) as ((dl & E & _ & _ & _ & W) & _).
  exists dl; split; assumption.
Defined.

(** ** Evaluation and the grammar rules *)

Lemma cups_l_Ok (t : Ty) :
  exists c, cups (Ty_l t) t = Ok c
            /\ dom c = Ty_l t ++ t /\ cod c = []
            /\ List.length (inside c) = List.length t.
Proof.
  destruct (cups_matched_Ok _ _ (matched_l_Ty t)) as (c & E & D & C & L).
  rewrite Ty_l_length in L. eauto.
Qed.

Lemma cups_r_Ok (t : Ty) :
  exists c, cups t (Ty_r t) = Ok c
            /\ dom c = t ++ Ty_r t /\ cod c = []
            /\ List.length (inside c) = List.length t.
Proof. exact (cups_matched_Ok _ _ (matched_Ty_r t)). Qed.

(** X8: [eval], [fa], [ba], [fc] and [bc] are defined on all types and have
    the types of the rules of a categorial grammar: [eval(base, exponent)]
    goes from [(base << exponent) @ exponent], or from
    [exponent @ (exponent >> base)] when [left] is false, to [base] with
    [len(exponent)] cups; [fa] and [ba] are these two evaluations; [fc] goes
    from [(left << middle) @ (middle << right)] to [left << right] and [bc]
    from [(left >> middle) @ (middle >> right)] to [left >> right]. *)
Theorem eval_and_grammar_rules (base exponent middle : Ty) :
  (exists d, eval base exponent true = Ok d
             /\ dom d = over base exponent ++ exponent /\ cod d = base
             /\ len (inside d) = len exponent)
  /\ (exists d, eval base exponent false = Ok d
                /\ dom d = exponent ++ under base exponent /\ cod d = base
                /\ len (inside d) = len exponent)
  /\ fa base exponent = eval base exponent true
  /\ ba exponent base = eval base exponent false
  /\ (exists d, fc base middle exponent = Ok d
                /\ dom d = Ty_lshift base middle ++ Ty_lshift middle exponent
                /\ cod d = Ty_lshift base exponent
                /\ len (inside d) = len middle)
  /\ (exists d, bc base middle exponent = Ok d
                /\ dom d = Ty_rshift base middle ++ Ty_rshift middle exponent
                /\ cod d = Ty_rshift base exponent
                /\ len (inside d) = len middle).
Proof.
  unfold over, under, Ty_lshift, Ty_rshift, len.
  refine (conj _ (conj _ (conj eq_refl (conj eq_refl (conj _ _))))).
  - destruct (cups_l_Ok exponent) as (c & E & D & C & L).
    unfold eval. rewrite E. cbn [bind]. eexists; split; [reflexivity|].
    simpl. rewrite D, C. repeat split.
    + rewrite <- ?app_assoc; reflexivity.
    + apply app_nil_r.
    + rewrite ?length_app, ?length_map, L; simpl; lia.
  - destruct (cups_r_Ok exponent) as (c & E & D & C & L).
    unfold eval. rewrite E. cbn [bind]. eexists; split; [reflexivity|].
    simpl. rewrite D, C. repeat split.
    + rewrite <- ?app_assoc; reflexivity.
    + rewrite ?length_app, ?length_map, L; simpl; lia.
  - destruct (cups_l_Ok middle) as (c & E & D & C & L).
    unfold fc. rewrite E. cbn [bind]. eexists; split; [reflexivity|].
    simpl. rewrite D, C. repeat split.
    + rewrite <- ?app_assoc; reflexivity.
    + rewrite ?app_nil_r, <- ?app_assoc; reflexivity.
    + rewrite ?length_app, ?length_map, L; simpl; lia.
  - destruct (cups_r_Ok middle) as (c & E & D & C & L).
    unfold bc. rewrite E. cbn [bind]. eexists; split; [reflexivity|].
    simpl. rewrite D, C. repeat split.
    + rewrite <- ?app_assoc; reflexivity.
    + rewrite ?app_nil_r, <- ?app_assoc; reflexivity.
    + rewrite ?length_app, ?length_map, L; simpl; lia.
Qed.

(** ** Currying at the ends of its range *)

Lemma whisker_nil (x : Layer) : whisker [] [] x = x.
Proof. destruct x; unfold whisker; simpl. rewrite app_nil_r. reflexivity. Qed.

Lemma map_whisker_nil (layers : list Layer) : map (whisker [] []) layers = layers.
Proof.
  induction layers as [|x layers IH]; simpl; [reflexivity|].
  rewrite whisker_nil, IH. reflexivity.
Qed.

Lemma tensor_Id_nil_l (d : Diagram) : Id [] @@ d = d.
Proof.
  destruct d as [layers t t']. unfold tensor, Id; simpl.
  rewrite map_whisker_nil. reflexivity.
Qed.

Lemma tensor_Id_nil_r (d : Diagram) : d @@ Id [] = d.
Proof.
  destruct d as [layers t t']. unfold tensor, Id; simpl.
  rewrite map_whisker_nil, !app_nil_r. reflexivity.
Qed.

Lemma compose_Id_l (d : Diagram) : Id (dom d) >> d = Ok d.
Proof. rewrite compose_Ok by reflexivity. destruct d; reflexivity. Qed.

Lemma slice_to_all {A : Type} (n : Z) (t : list A) :
  len t <= n -> slice None (Some n) t = t.
Proof.
  intros H. unfold slice, clamp.
  assert (E : (n <? 0) = false) by (apply Z.ltb_ge; unfold len in *; lia).
  rewrite E. replace (Z.min n (len t) - 0) with (len t) by lia.
  unfold len. rewrite Nat2Z.id. apply firstn_all.
Qed.

Lemma slice_from_all {A : Type} (n : Z) (t : list A) :
  len t <= n -> slice (Some n) None t = [].
Proof.
  intros H. unfold slice, clamp.
  assert (E : (n <? 0) = false) by (apply Z.ltb_ge; unfold len in *; lia).
  rewrite E. replace (len t - Z.min n (len t)) with 0 by lia. reflexivity.
Qed.

Lemma slice_to_neg {A : Type} (n : Z) (t : list A) :
  - len t <= n < 0 -> slice None (Some n) t = slice None (Some (len t + n)) t.
Proof.
  intros H. unfold slice, clamp.
  assert (E1 : (n <? 0) = true) by (apply Z.ltb_lt; lia).
  assert (E2 : (len t + n <? 0) = false) by (apply Z.ltb_ge; lia).
  rewrite E1, E2. f_equal. lia.
Qed.

Lemma slice_from_neg {A : Type} (n : Z) (t : list A) :
  - len t <= n < 0 -> slice (Some n) None t = slice (Some (len t + n)) None t.
Proof.
  intros H. unfold slice, clamp.
  assert (E1 : (n <? 0) = true) by (apply Z.ltb_lt; lia).
  assert (E2 : (len t + n <? 0) = false) by (apply Z.ltb_ge; lia).
  rewrite E1, E2.
  replace (Z.max 0 (n + len t)) with (Z.min (len t + n) (len t)) by lia.
  reflexivity.
Qed.

(** X9: on every diagram, also one from the unit, [curry(n)] with
    [n >= len(d.dom)] bends no wire and returns the diagram itself, and so
    does [curry(len(d.dom), left=False)]; a negative [k] counts from the end
    of the domain, as in the slices [dom[:k]] and [dom[k:]]: [curry(k)] is
    [curry(len(d.dom) + k)]. *)
Theorem curry_ends (d : Diagram) :
  (forall n, len (dom d) <= n -> curry d n true = Ok d)
  /\ curry d (len (dom d)) false = Ok d
  /\ (forall k, - len (dom d) <= k < 0 ->
        curry d k true = curry d (len (dom d) + k) true).
Proof.
  refine (conj _ (conj _ _)).
  - intros n Hn. unfold curry. rewrite slice_to_all, slice_from_all by exact Hn.
    change (caps [] (Ty_l [])) with (Ok (Id [])). cbn [bind].
    rewrite !tensor_Id_nil_r. apply compose_Id_l.
  - unfold curry. rewrite Z.sub_diag, slice_0.
    rewrite (slice_from 0) by (unfold len; lia).
    change (caps (Ty_r []) []) with (Ok (Id [])). cbn [bind].
    change (Ty_r []) with (@nil Ob). rewrite !tensor_Id_nil_l.
    apply compose_Id_l.
  - intros k Hk. unfold curry.
    rewrite slice_to_neg, slice_from_neg by exact Hk. reflexivity.
Qed.

Lemma curry_ends_witness :
  curry (of_box Alice) 0 true = Ok (of_box Alice)
  /\ curry (of_box Alice) 0 false = Ok (of_box Alice)
  /\ curry (Id [ob_a; ob_b; ob_c]) 5 true = Ok (Id [ob_a; ob_b; ob_c])
  /\ curry (Id [ob_a; ob_b; ob_c]) (-1) true = curry (Id [ob_a; ob_b; ob_c]) 2 true.
Proof.
  destruct (curry_ends (of_box Alice)) as (A1 & A2 & _).
  destruct (curry_ends (Id [ob_a; ob_b; ob_c])) as (E1 & _ & E3).
  refine (conj (A1 0 _) (conj A2 (conj (E1 5 _) (E3 (-1) _)))).
  - discriminate.
  - discriminate.
  - split; [discriminate | reflexivity].
Defined.

(** ** Explicit cups on neighbouring, equal and distant wires *)

Lemma len_app {A : Type} (s t : list A) : len (s ++ t) = len s + len t.
Proof. unfold len. rewrite length_app. lia. Qed.

Lemma len_nonneg {A : Type} (t : list A) : 0 <= len t.
Proof. unfold len. lia. Qed.

Lemma slice_mid {A : Type} (l m r : list A) :
  slice (Some (len l)) (Some (len l + len m)) (l ++ m ++ r) = m.
Proof.
  pose proof (len_nonneg l); pose proof (len_nonneg m); pose proof (len_nonneg r).
  unfold slice, clamp. rewrite !len_app.
  assert (E1 : (len l <? 0) = false) by (apply Z.ltb_ge; lia).
  assert (E2 : (len l + len m <? 0) = false) by (apply Z.ltb_ge; lia).
  rewrite E1, E2.
  replace (Z.min (len l) (len l + (len m + len r))) with (len l) by lia.
  replace (Z.min (len l + len m) (len l + (len m + len r)) - len l) with (len m) by lia.
  unfold len. rewrite !Nat2Z.id.
  rewrite skipn_app, skipn_all, Nat.sub_diag. simpl.
  rewrite firstn_app, firstn_all, Nat.sub_diag. simpl. apply app_nil_r.
Qed.

Lemma slice_prefix {A : Type} (l r : list A) :
  slice None (Some (len l)) (l ++ r) = l.
Proof.
  pose proof (len_nonneg l); pose proof (len_nonneg r).
  rewrite slice_to by (rewrite len_app; lia).
  unfold len. rewrite Nat2Z.id, firstn_app, firstn_all, Nat.sub_diag. simpl.
  apply app_nil_r.
Qed.

Lemma slice_suffix {A : Type} (l r : list A) :
  slice (Some (len l)) None (l ++ r) = r.
Proof.
  pose proof (len_nonneg l); pose proof (len_nonneg r).
  rewrite slice_from by (rewrite len_app; lia).
  unfold len. rewrite Nat2Z.id, skipn_app, skipn_all, Nat.sub_diag. reflexivity.
Qed.

Lemma range_empty (a b : Z) : b <= a -> range a b = [].
Proof. intros H. unfold range. replace (Z.to_nat (b - a)) with 0%nat by lia. reflexivity. Qed.

Lemma range_cons (a b : Z) : a < b -> range a b = a :: range (a + 1) b.
Proof.
  intros H. unfold range.
  replace (Z.to_nat (b - a)) with (S (Z.to_nat (b - (a + 1)))) by lia.
  cbn [seq map]. f_equal; [lia|].
  rewrite <- seq_shift, map_map. apply map_ext. intros k. lia.
Qed.

(** The last step of [Diagram.cup], a cup on the wires [y - 1] and [y]. *)
Lemma cup_in_range (Swap : Ty -> Ty -> result Diagram) (d : Diagram) (x y : Z) :
  0 <= Z.min x y -> Z.max x y < len (cod d) ->
  cup Swap d x y =
  (self' <- cup_loop Swap d (range (Z.min x y) (Z.max x y - 1)) ;;
   c <- Cup (slice (Some (Z.max x y - 1)) (Some (Z.max x y)) (cod self'))
            (slice (Some (Z.max x y)) (Some (Z.max x y + 1)) (cod self')) ;;
   self' >> Id (slice None (Some (Z.max x y - 1)) (cod self')) @@ of_box c
            @@ Id (slice (Some (Z.max x y + 1)) None (cod self'))).
Proof.
  intros H1 H2. unfold cup.
  assert (E1 : (Z.min x y <? 0) = false) by (apply Z.ltb_ge; lia).
  assert (E2 : (len (cod d) <=? Z.max x y) = false) by (apply Z.leb_gt; lia).
  rewrite E1, E2. reflexivity.
Qed.

Lemma cup_on_neighbours (Swap : Ty -> Ty -> result Diagram) (d : Diagram)
      (l r : Ty) (a b : Ob) :
  cod d = l ++ [a; b] ++ r ->
  (self' <- cup_loop Swap d [] ;;
   c <- Cup (slice (Some (len l + 1 - 1)) (Some (len l + 1)) (cod self'))
            (slice (Some (len l + 1)) (Some (len l + 1 + 1)) (cod self')) ;;
   self' >> Id (slice None (Some (len l + 1 - 1)) (cod self')) @@ of_box c
            @@ Id (slice (Some (len l + 1 + 1)) None (cod self')))
  = (c <- Cup [a] [b] ;;
     Ok (mkDiagram (inside d ++ [mkLayer l c r]) (dom d) (l ++ r))).
Proof.
  intros H. cbn [cup_loop bind]. rewrite H.
  replace (len l + 1 - 1) with (len l) by lia.
  rewrite slice_prefix.
  change (l ++ [a; b] ++ r) with (l ++ [a] ++ ([b] ++ r)) at 1.
  replace (len l + 1) with (len l + len [a]) at 1 by reflexivity.
  rewrite slice_mid.
  replace (l ++ [a; b] ++ r) with ((l ++ [a]) ++ [b] ++ r)
    by (rewrite <- app_assoc; reflexivity).
  replace (len l + 1) with (len (l ++ [a])) by (rewrite len_app; reflexivity).
  replace (len (l ++ [a]) + 1) with (len (l ++ [a]) + len [b]) by reflexivity.
  rewrite slice_mid.
  replace ((l ++ [a]) ++ [b] ++ r) with ((l ++ [a; b]) ++ r)
    by (rewrite <- !app_assoc; reflexivity).
  replace (len (l ++ [a]) + len [b]) with (len (l ++ [a; b]))
    by (rewrite !len_app; change (len [a; b]) with 2;
        change (len [a]) with 1; change (len [b]) with 1; lia).
  rewrite slice_suffix.
  destruct (Cup [a] [b]) as [c|e] eqn:C; [|reflexivity]. cbn [bind].
  destruct (Cup_Ok_inv _ _ _ C) as (x0 & y0 & Hx & Hy & _ & ->).
  inversion Hx; inversion Hy; subst x0 y0.
  rewrite compose_Ok.
  - f_equal. unfold tensor, of_box, whisker, Id; simpl.
    rewrite ?app_nil_r. reflexivity.
  - simpl. rewrite H, <- !app_assoc. reflexivity.
Qed.

(** X10: on a diagram whose codomain is [l @ a @ b @ r], the explicit cup
    on the two neighbouring wires, whichever index comes first, calls no
    swap: it is the diagram with one more layer, [Cup(a, b)] between [l]
    and [r], and codomain [l @ r] when [a] and [b] are adjoint, and the
    error of [Cup(a, b)] otherwise. *)
Theorem cup_neighbours (Swap : Ty -> Ty -> result Diagram) (d : Diagram)
        (l r : Ty) (a b : Ob) (H : cod d = l ++ [a; b] ++ r) :
  cup Swap d (len l) (len l + 1) =
  (c <- Cup [a] [b] ;;
   Ok (mkDiagram (inside d ++ [mkLayer l c r]) (dom d) (l ++ r)))
  /\ cup Swap d (len l + 1) (len l) =
     (c <- Cup [a] [b] ;;
      Ok (mkDiagram (inside d ++ [mkLayer l c r]) (dom d) (l ++ r))).
Proof.
  pose proof (len_nonneg l); pose proof (len_nonneg r).
  assert (L : len (cod d) = len l + 2 + len r)
    by (rewrite H, !len_app; change (len [a; b]) with 2; lia).
  split.
  - rewrite cup_in_range by lia.
    rewrite Z.min_l, Z.max_r by lia.
    rewrite range_empty by lia. apply cup_on_neighbours, H.
  - rewrite cup_in_range by lia.
    rewrite Z.min_r, Z.max_l by lia.
    rewrite range_empty by lia. apply cup_on_neighbours, H.
Qed.

Lemma cup_neighbours_witness :
  cod (Id [ob_s; ob_n; Ob_r ob_n]) = [ob_s] ++ [ob_n; Ob_r ob_n] ++ []
  /\ cup rigid_Swap (Id [ob_s; ob_n; Ob_r ob_n]) 2 1 =
     Ok (mkDiagram [mkLayer [ob_s] (MkCup [ob_n] [Ob_r ob_n]) []]
                   [ob_s; ob_n; Ob_r ob_n] [ob_s]).
Proof.
  split; [reflexivity|].
  exact (proj2 (cup_neighbours rigid_Swap (Id [ob_s; ob_n; Ob_r ob_n])
                  [ob_s] [] ob_n (Ob_r ob_n) eq_refl)).
Defined.

(** X11: with twice the same index [k >= 1], [cup(k, k)] is not refused: it
    is [cup(k - 1, k)], the cup on the wire [k] and the wire before it.  On
    a codomain of one wire or more, [cup(0, 0)] asks [Cup] for a cup on the
    unit and a wire, which raises the [ValueError] of cups on types that are
    not of length one; on the unit codomain every [cup(k, k)] is out of
    range. *)
Theorem cup_equal_indices (Swap : Ty -> Ty -> result Diagram) (d : Diagram) :
  (forall k, 1 <= k < len (cod d) -> cup Swap d k k = cup Swap d (k - 1) k)
  /\ (1 <= len (cod d) ->
      cup Swap d 0 0 =
      Raise (ValueError (cup_vs_cups [] (slice (Some 0) (Some 1) (cod d)))))
  /\ (len (cod d) = 0 ->
      forall k, cup Swap d k k = Raise (ValueError (indices_out_of_range k k))).
Proof.
  refine (conj _ (conj _ _)).
  - intros k H. rewrite !cup_in_range by lia.
    rewrite Z.min_id, Z.max_id, Z.min_l, Z.max_r by lia.
    rewrite !range_empty by lia. reflexivity.
  - intros H. rewrite cup_in_range by lia.
    rewrite Z.min_id, Z.max_id, range_empty by lia. cbn [cup_loop bind].
    assert (E : slice (Some (0 - 1)) (Some 0) (cod d) = []).
    { unfold slice, clamp. change (0 - 1 <? 0) with true. change (0 <? 0) with false.
      cbv iota. replace (Z.to_nat (Z.min 0 (len (cod d)) - Z.max 0 (0 - 1 + len (cod d))))
        with 0%nat by lia. reflexivity. }
    rewrite E. reflexivity.
  - intros H k. unfold cup. rewrite Z.min_id, Z.max_id, H.
    destruct (Z.ltb_spec k 0) as [K|K]; [reflexivity|].
    destruct (Z.leb_spec 0 k) as [K'|K']; [reflexivity | lia].
Qed.

Lemma cup_equal_indices_witness :
  cup rigid_Swap (Id [ob_n; Ob_r ob_n]) 1 1
  = cup rigid_Swap (Id [ob_n; Ob_r ob_n]) 0 1
  /\ cup rigid_Swap (of_box Alice) 0 0
     = Raise (ValueError (cup_vs_cups [] [ob_n]))
  /\ cup rigid_Swap (Id []) 0 0 = Raise (ValueError (indices_out_of_range 0 0)).
Proof.
  refine (conj (proj1 (cup_equal_indices rigid_Swap (Id [ob_n; Ob_r ob_n])) 1 _)
            (conj (proj1 (proj2 (cup_equal_indices rigid_Swap (of_box Alice))) _)
               (proj2 (proj2 (cup_equal_indices rigid_Swap (Id []))) eq_refl 0))).
  - split; [discriminate | reflexivity].
  - discriminate.
Defined.

(** X12: between two wires that are not neighbours [cup] first swaps, so
    that the call ends with the error of [Swap] when [Swap] raises; in
    [rigid.py] alone, where the name [Swap] is not bound, every such call
    ends with a [NameError]. *)
Theorem cup_distant_needs_Swap (Swap : Ty -> Ty -> result Diagram) (e : exn)
        (d : Diagram) (x y : Z)
        (Hs : forall t0 t1, Swap t0 t1 = Raise e)
        (Hx : 0 <= x) (Hxy : x + 2 <= y) (Hy : y < len (cod d)) :
  cup Swap d x y = Raise e /\ cup Swap d y x = Raise e.
Proof.
  split.
  - rewrite cup_in_range by lia. rewrite Z.min_l, Z.max_r by lia.
    rewrite range_cons by lia. cbn [cup_loop]. unfold cup_step.
    rewrite Hs. reflexivity.
  - rewrite cup_in_range by lia. rewrite Z.min_r, Z.max_l by lia.
    rewrite range_cons by lia. cbn [cup_loop]. unfold cup_step.
    rewrite Hs. reflexivity.
Qed.

Lemma cup_distant_needs_Swap_witness :
  (forall t0 t1, rigid_Swap t0 t1 = Raise (NameError "Swap"))
  /\ 0 <= 0 /\ 0 + 2 <= 2 /\ 2 < len (cod (Id [ob_n; ob_s; Ob_r ob_n]))
  /\ cup rigid_Swap (Id [ob_n; ob_s; Ob_r ob_n]) 0 2 = Raise (NameError "Swap").
Proof.
  assert (Hs : forall t0 t1, rigid_Swap t0 t1 = Raise (NameError "Swap"))
    by (intros; reflexivity).
  split; [exact Hs|]. split; [discriminate|]. split; [discriminate|].
  split; [reflexivity|].
  exact (proj1 (cup_distant_needs_Swap rigid_Swap (NameError "Swap")
                  (Id [ob_n; ob_s; Ob_r ob_n]) 0 2 Hs
                  ltac:(discriminate) ltac:(discriminate) eq_refl)).
Defined.

(** ** Transposing one box never succeeds *)

Lemma dagger_box_raises (b : Box) : exists msg, dagger b = Raise (AxiomError msg).
Proof. destruct b; eexists; reflexivity. Qed.

Lemma layer_at_In (layers : list Layer) (i : Z) (x : Layer) :
  layer_at layers i = Ok x -> In x layers.
Proof.
  unfold layer_at. destruct (_ || _); [discriminate|].
  destruct (nth_error layers _) as [y|] eqn:E; [|discriminate].
  intros K; inversion K; subst. eapply nth_error_In, E.
Qed.

Lemma layer_at_Raise (layers : list Layer) (i : Z) (e : exn) :
  layer_at layers i = Raise e -> e = IndexError.
Proof.
  unfold layer_at. destruct (_ || _); [intros K; inversion K; reflexivity|].
  destruct (nth_error layers _); [discriminate | intros K; inversion K; reflexivity].
Qed.

(** X13: [transpose_box] never returns: on a diagram and an index it
    raises [IndexError] when there is no layer of that index, and the
    [AxiomError] of [dagger] otherwise, since the adjoint of the box is
    asked for its dagger first. *)
Theorem transpose_box_raises
        (rebuild : Diagram -> Z -> Layer -> Diagram -> result Diagram)
        (self : Diagram) (i : Z) (left : bool) (Hb : wf_diagram self = true) :
  exists e, transpose_box rebuild self i left = Raise e
            /\ ((e = IndexError /\ layer_at (inside self) i = Raise IndexError)
                \/ (exists msg x, e = AxiomError msg
                                  /\ layer_at (inside self) i = Ok x)).
Proof.
  unfold transpose_box. destruct (layer_at (inside self) i) as [x|e] eqn:E.
  - pose proof (wf_diagram_Forall _ Hb) as W. rewrite Forall_forall in W.
    specialize (W x (layer_at_In _ _ _ E)). cbn [bind]. destruct left.
    + destruct (Box_r_Ok _ W) as (b & -> & _). cbn [bind].
      destruct (dagger_box_raises b) as [msg ->]. cbn [bind].
      eexists; split; [reflexivity|]. right; eauto.
    + destruct (Box_l_Ok _ W) as (b & -> & _). cbn [bind].
      destruct (dagger_box_raises b) as [msg ->]. cbn [bind].
      eexists; split; [reflexivity|]. right; eauto.
  - cbn [bind]. pose proof (layer_at_Raise _ _ _ E); subst e.
    eexists; split; [reflexivity|]. left; auto.
Qed.

Lemma transpose_box_raises_witness :
  wf_diagram sentence = true
  /\ transpose_box (fun _ _ _ t => Ok t) sentence 2 false
     = Raise (AxiomError rigid_cup_no_dagger)
  /\ exists e, transpose_box (fun _ _ _ t => Ok t) sentence 3 false = Raise e.
Proof.
  split; [reflexivity|]. split; [reflexivity|].
  destruct (transpose_box_raises (fun _ _ _ t => Ok t) sentence 3 false eq_refl)
    as (e & E & _).
  exists e; exact E.
Defined.

(** ** A rigid functor on boxes with a winding number *)

Lemma iterate_Box_l (name : string) (d c : Ty) (data : option string) (k : Z) (n : nat) :
  iterate_result n Box_l
    (MkBox name (Nat.iter n Ty_r d) (Nat.iter n Ty_r c) data (Z.of_nat n + k))
  = Ok (MkBox name d c data k).
Proof.
  induction n as [|n IH]; [reflexivity|].
  cbn [iterate_result Box_l bind]. rewrite !Nat.iter_succ, !Ty_r_l.
  replace (Z.of_nat (S n) + k - 1) with (Z.of_nat n + k) by lia. exact IH.
Qed.

Lemma iterate_Box_r (name : string) (d c : Ty) (data : option string) (k : Z) (n : nat) :
  iterate_result n Box_r
    (MkBox name (Nat.iter n Ty_l d) (Nat.iter n Ty_l c) data (k - Z.of_nat n))
  = Ok (MkBox name d c data k).
Proof.
  induction n as [|n IH].
  - cbn [iterate_result Nat.iter nat_rect]. do 2 f_equal. simpl. lia.
  - cbn [iterate_result Box_r bind]. rewrite !Nat.iter_succ, !Ty_l_r.
    replace (k - Z.of_nat (S n) + 1) with (k - Z.of_nat n) by lia. exact IH.
Qed.

(** X14: a functor is given by its values on the boxes of winding [0]: on
    the [n]-th right adjoint of such a box it is the [n]-th right adjoint,
    in the codomain, of the image of the box, and on the [n]-th left
    adjoint the [n]-th left adjoint of that image. *)
Theorem Functor_call_Box_winding
        (Object Arrow : Type) (arrow_l arrow_r : Arrow -> Arrow)
        (cod_cups cod_caps : Object -> Object -> result Arrow)
        (call_Ty : Ty -> result Object) (super_call_Box : Box -> result Arrow)
        (name : string) (d c : Ty) (data : option string) (n : nat) :
  Functor_call_Box Object Arrow arrow_l arrow_r cod_cups cod_caps call_Ty
    super_call_Box
    (MkBox name (Nat.iter n Ty_r d) (Nat.iter n Ty_r c) data (Z.of_nat n))
  = (image <- super_call_Box (MkBox name d c data 0) ;;
     Ok (Nat.iter n arrow_r image))
  /\ Functor_call_Box Object Arrow arrow_l arrow_r cod_cups cod_caps call_Ty
       super_call_Box
       (MkBox name (Nat.iter n Ty_l d) (Nat.iter n Ty_l c) data (- Z.of_nat n))
     = (image <- super_call_Box (MkBox name d c data 0) ;;
        Ok (Nat.iter n arrow_l image)).
Proof.
  destruct n as [|n].
  - split; cbn [Functor_call_Box Nat.iter nat_rect]; simpl; symmetry; apply bind_Ok_r.
  - split; unfold Functor_call_Box.
    + assert (E1 : (Z.of_nat (S n) =? 0) = false) by (apply Z.eqb_neq; lia).
      assert (E2 : (0 <? Z.of_nat (S n)) = true) by (apply Z.ltb_lt; lia).
      assert (E3 : (Z.of_nat (S n) <? 0) = false) by (apply Z.ltb_ge; lia).
      rewrite E1, E2, E3, Zabs2Nat.id.
      pose proof (iterate_Box_l name d c data 0 (S n)) as I.
      rewrite Z.add_0_r in I. rewrite I. reflexivity.
    + assert (E1 : (- Z.of_nat (S n) =? 0) = false) by (apply Z.eqb_neq; lia).
      assert (E2 : (0 <? - Z.of_nat (S n)) = false) by (apply Z.ltb_ge; lia).
      assert (E3 : (- Z.of_nat (S n) <? 0) = true) by (apply Z.ltb_lt; lia).
      rewrite E1, E2, E3.
      replace (Z.abs_nat (- Z.of_nat (S n))) with (S n) by lia.
      pose proof (iterate_Box_r name d c data 0 (S n)) as I.
      rewrite Z.sub_0_l in I. rewrite I. reflexivity.
Qed.

(** ** Adjoints of formal sums *)

Lemma mapM_Diagram_l_r (ts : list Diagram) :
  Forall (fun t => wf_diagram t = true) ts ->
  exists ts', mapM Diagram_l ts = Ok ts' /\ mapM Diagram_r ts' = Ok ts.
Proof.
  apply mapM_inverse. intros t W.
  pose proof (Diagram_l_r t W) as E.
  destruct (Diagram_l t) as [t'|]; [|discriminate]. eauto.
Qed.

Lemma mapM_Diagram_r_l (ts : list Diagram) :
  Forall (fun t => wf_diagram t = true) ts ->
  exists ts', mapM Diagram_r ts = Ok ts' /\ mapM Diagram_l ts' = Ok ts.
Proof.
  apply mapM_inverse. intros t W.
  pose proof (Diagram_r_l t W) as E.
  destruct (Diagram_r t) as [t'|]; [|discriminate]. eauto.
Qed.

Lemma mapM_Diagram_l_parallel (ts ts' : list Diagram) (d c : Ty) :
  parallel ts d c -> mapM Diagram_l ts = Ok ts' -> parallel ts' (Ty_l d) (Ty_l c).
Proof.
  unfold parallel. intros P. revert ts'.
  induction P as [|t ts [Hd Hc] _ IH]; intros ts'; simpl.
  - intros K; inversion K; constructor.
  - rewrite Diagram_l_eq. destruct (mapM Layer_l (inside t)); [|discriminate].
    cbn [bind]. destruct (mapM Diagram_l ts) as [us|]; [|discriminate].
    cbn [bind]. intros K; inversion K; subst ts'.
    constructor; [simpl; rewrite Hd, Hc; auto | apply IH; reflexivity].
Qed.

Lemma mapM_Diagram_r_parallel (ts ts' : list Diagram) (d c : Ty) :
  parallel ts d c -> mapM Diagram_r ts = Ok ts' -> parallel ts' (Ty_r d) (Ty_r c).
Proof.
  unfold parallel. intros P. revert ts'.
  induction P as [|t ts [Hd Hc] _ IH]; intros ts'; simpl.
  - intros K; inversion K; constructor.
  - rewrite Diagram_r_eq. destruct (mapM Layer_r (inside t)); [|discriminate].
    cbn [bind]. destruct (mapM Diagram_r ts) as [us|]; [|discriminate].
    cbn [bind]. intros K; inversion K; subst ts'.
    constructor; [simpl; rewrite Hd, Hc; auto | apply IH; reflexivity].
Qed.

(** X15: for a formal sum of diagrams that go between its domain and its
    codomain, with a constructor of sums that accepts such terms, the left
    transpose followed by the right transpose, and the right one followed
    by the left one, give the sum back; the transposes have as many terms. *)
Theorem Sum_adjoint_involution
        (sum_factory : list Diagram -> Ty -> Ty -> result Sum) (s : Sum)
        (Hsum : forall ts d c, parallel ts d c -> sum_factory ts d c = Ok (mkSum ts d c))
        (Hp : parallel (terms s) (Sum_dom s) (Sum_cod s))
        (Hw : Forall (fun t => wf_diagram t = true) (terms s)) :
  (s' <- Sum_l sum_factory s ;; Sum_r sum_factory s') = Ok s
  /\ (s' <- Sum_r sum_factory s ;; Sum_l sum_factory s') = Ok s
  /\ (exists s', Sum_l sum_factory s = Ok s' /\ len (terms s') = len (terms s)).
Proof.
  destruct s as [ts d c]; simpl in *.
  destruct (mapM_Diagram_l_r ts Hw) as (tl & El & El').
  destruct (mapM_Diagram_r_l ts Hw) as (tr & Er & Er').
  pose proof (mapM_Diagram_l_parallel _ _ _ _ Hp El) as Pl.
  pose proof (mapM_Diagram_r_parallel _ _ _ _ Hp Er) as Pr.
  unfold Sum_l, Sum_r; simpl.
  rewrite El, Er; cbn [bind]. rewrite (Hsum _ _ _ Pl), (Hsum _ _ _ Pr); cbn [bind].
  cbn [terms Sum_dom Sum_cod]. rewrite El', Er'; cbn [bind].
  rewrite !Ty_l_r, !Ty_r_l, (Hsum _ _ _ Hp).
  repeat split. eexists; split; [reflexivity|]. cbn [terms]. unfold len. f_equal.
  clear -El. revert tl El. induction ts as [|t ts IH]; intros tl; simpl.
  - intros K; inversion K; reflexivity.
  - destruct (Diagram_l t); [|discriminate]. cbn [bind].
    destruct (mapM Diagram_l ts) as [us|]; [|discriminate]. cbn [bind].
    intros K; inversion K; simpl. f_equal. apply IH; reflexivity.
Qed.

Lemma Sum_adjoint_involution_witness :
  (forall ts d c, parallel ts d c -> Ok (mkSum ts d c) = Ok (mkSum ts d c))
  /\ parallel [sentence; sentence] [] [ob_s]
  /\ Forall (fun t => wf_diagram t = true) [sentence; sentence]
  /\ (s' <- Sum_l (fun ts d c => Ok (mkSum ts d c))
             (mkSum [sentence; sentence] [] [ob_s]) ;;
      Sum_r (fun ts d c => Ok (mkSum ts d c)) s')
     = Ok (mkSum [sentence; sentence] [] [ob_s]).
Proof.
  assert (Hp : parallel [sentence; sentence] [] [ob_s])
    by (repeat constructor).
  assert (Hw : Forall (fun t => wf_diagram t = true) [sentence; sentence])
    by (repeat constructor).
  split; [intros; reflexivity|]. split; [exact Hp|]. split; [exact Hw|].
  exact (proj1 (Sum_adjoint_involution (fun ts d c => Ok (mkSum ts d c))
                  (mkSum [sentence; sentence] [] [ob_s])
                  (fun ts d c _ => eq_refl) Hp Hw)).
Defined.

(** ** The winding number of a type *)





(** ** The trace of a compact diagram *)

Lemma slice_last {A : Type} (p e : list A) :
  0 < len e -> slice (Some (- len e)) None (p ++ e) = e.
Proof.
  intros H. pose proof (len_nonneg p).
  rewrite slice_from_neg by (rewrite len_app; lia).
  replace (len (p ++ e) + - len e) with (len p) by (rewrite len_app; lia).
  apply slice_suffix.
Qed.

Lemma slice_but_last {A : Type} (p e : list A) :
  0 < len e -> slice None (Some (- len e)) (p ++ e) = p.
Proof.
  intros H. pose proof (len_nonneg p).
  rewrite slice_to_neg by (rewrite len_app; lia).
  replace (len (p ++ e) + - len e) with (len p) by (rewrite len_app; lia).
  apply slice_prefix.
Qed.

Lemma trace_on (compact_caps compact_cups : Ty -> Ty -> result Diagram)
      (compact_r : Ty -> Ty) (self : Diagram) (n : Z) (p e q f : Ty) :
  (forall x, exists b, compact_caps x (compact_r x) = Ok b
                       /\ dom b = [] /\ cod b = x ++ compact_r x) ->
  (forall x, exists c, compact_cups x (compact_r x) = Ok c
                       /\ dom c = x ++ compact_r x /\ cod c = []) ->
  dom self = p ++ e -> cod self = q ++ f ->
  slice (Some (- n)) None (dom self) = e ->
  slice None (Some (- n)) (dom self) = p ->
  slice (Some (- n)) None (cod self) = f ->
  slice None (Some (- n)) (cod self) = q ->
  ((exists t, trace compact_caps compact_cups compact_r self n = Ok t)
   <-> compact_r e = compact_r f)
  /\ (forall t, trace compact_caps compact_cups compact_r self n = Ok t ->
                dom t = p /\ cod t = q).
Proof.
  intros Hcaps Hcups Hd Hc S1 S2 S3 S4.
  unfold trace. rewrite S1, S2, S3, S4.
  destruct (Hcaps e) as (b & -> & B1 & B2).
  destruct (Hcups f) as (c & -> & C1 & C2). cbn [bind].
  rewrite compose_Ok by (simpl; rewrite B2, Hd, <- app_assoc; reflexivity).
  cbn [bind]. unfold compose. cbn [cod dom tensor Id]. rewrite C1, C2, B1, Hc.
  destruct (Ty_eqb ((q ++ f) ++ compact_r e) (q ++ f ++ compact_r f)) eqn:E.
  - apply Ty_eqb_eq in E. rewrite <- app_assoc in E.
    apply app_inv_head in E. apply app_inv_head in E.
    split; [split; [intros _; exact E | intros _; eauto]|].
    intros t K; inversion K; subst t; simpl. rewrite !app_nil_r. auto.
  - apply Ty_eqb_neq in E. split; [split|].
    + intros [t K]; discriminate K.
    + intros R. exfalso; apply E. rewrite R, <- app_assoc. reflexivity.
    + intros t K; discriminate K.
Qed.

(** X17: with cups and caps of the compact layer that are defined on a
    type and its right adjoint, [trace(n)] for [n > 0] on a diagram from
    [p @ e] to [q @ f], [e] and [f] of length [n], is defined if and only if
    [e.r == f.r]; it then goes from [p] to [q], the last [n] wires being
    traced out. *)
Theorem trace_defined_iff
        (compact_caps compact_cups : Ty -> Ty -> result Diagram)
        (compact_r : Ty -> Ty) (self : Diagram) (p e q f : Ty)
        (Hcaps : forall x, exists b, compact_caps x (compact_r x) = Ok b
                                     /\ dom b = [] /\ cod b = x ++ compact_r x)
        (Hcups : forall x, exists c, compact_cups x (compact_r x) = Ok c
                                     /\ dom c = x ++ compact_r x /\ cod c = [])
        (Hdom : dom self = p ++ e) (Hcod : cod self = q ++ f)
        (Hn : 0 < len e) (Hf : len f = len e) :
  ((exists t, trace compact_caps compact_cups compact_r self (len e) = Ok t)
   <-> compact_r e = compact_r f)
  /\ (forall t, trace compact_caps compact_cups compact_r self (len e) = Ok t ->
                dom t = p /\ cod t = q).
Proof.
  apply trace_on; try assumption.
  - rewrite Hdom. apply slice_last, Hn.
  - rewrite Hdom. apply slice_but_last, Hn.
  - rewrite Hcod, <- Hf. apply slice_last. lia.
  - rewrite Hcod, <- Hf. apply slice_but_last. lia.
Qed.

Lemma rigid_caps_r (x : Ty) :
  exists b, caps x (Ty_r x) = Ok b /\ dom b = [] /\ cod b = x ++ Ty_r x.
Proof.
  destruct (caps_matched_Ok _ _ (matched_Ty_r x)) as (b & E & D & C & _). eauto.
Qed.

Lemma rigid_cups_r (x : Ty) :
  exists c, cups x (Ty_r x) = Ok c /\ dom c = x ++ Ty_r x /\ cod c = [].
Proof.
  destruct (cups_matched_Ok _ _ (matched_Ty_r x)) as (c & E & D & C & _). eauto.
Qed.

Lemma trace_defined_iff_witness :
  dom (Id [ob_s; ob_n]) = [ob_s] ++ [ob_n]
  /\ cod (Id [ob_s; ob_n]) = [ob_s] ++ [ob_n]
  /\ 0 < len [ob_n] /\ len [ob_n] = len [ob_n]
  /\ forall t, trace caps cups Ty_r (Id [ob_s; ob_n]) (len [ob_n]) = Ok t ->
               dom t = [ob_s] /\ cod t = [ob_s].
Proof.
  split; [reflexivity|]. split; [reflexivity|]. split; [reflexivity|].
  split; [reflexivity|].
  exact (proj2 (trace_defined_iff caps cups Ty_r (Id [ob_s; ob_n])
                  [ob_s] [ob_n] [ob_s] [ob_n] rigid_caps_r rigid_cups_r
                  eq_refl eq_refl eq_refl eq_refl)).
Defined.

(** X18: [trace(0)] does not trace out no wire: [dom[-0:]] is the whole
    domain, so that all the wires are traced out; it is defined if and only
    if [dom.r == cod.r] and then goes from the unit to the unit. *)
Theorem trace_zero_traces_all
        (compact_caps compact_cups : Ty -> Ty -> result Diagram)
        (compact_r : Ty -> Ty) (self : Diagram)
        (Hcaps : forall x, exists b, compact_caps x (compact_r x) = Ok b
                                     /\ dom b = [] /\ cod b = x ++ compact_r x)
        (Hcups : forall x, exists c, compact_cups x (compact_r x) = Ok c
                                     /\ dom c = x ++ compact_r x /\ cod c = []) :
  ((exists t, trace compact_caps compact_cups compact_r self 0 = Ok t)
   <-> compact_r (dom self) = compact_r (cod self))
  /\ (forall t, trace compact_caps compact_cups compact_r self 0 = Ok t ->
                dom t = [] /\ cod t = []).
Proof.
  apply trace_on; try assumption; try reflexivity.
  - change (- 0) with 0. apply slice_from. pose proof (len_nonneg (dom self)). lia.
  - apply slice_0.
  - change (- 0) with 0. apply slice_from. pose proof (len_nonneg (cod self)). lia.
  - apply slice_0.
Qed.

Lemma trace_zero_traces_all_witness :
  (forall x, exists b, caps x (Ty_r x) = Ok b /\ dom b = [] /\ cod b = x ++ Ty_r x)
  /\ (forall x, exists c, cups x (Ty_r x) = Ok c /\ dom c = x ++ Ty_r x /\ cod c = [])
  /\ forall t, trace caps cups Ty_r (Id [ob_s; ob_n]) 0 = Ok t ->
               dom t = [] /\ cod t = [].
Proof.
  split; [exact rigid_caps_r|]. split; [exact rigid_cups_r|].
  exact (proj2 (trace_zero_traces_all caps cups Ty_r (Id [ob_s; ob_n])
                  rigid_caps_r rigid_cups_r)).
Defined.

(** * Properties of function.py *)

Lemma Fn_bind_assoc {E A B C : Type} (m : Fn.outcome E A)
      (f : A -> Fn.outcome E B) (g : B -> Fn.outcome E C) :
  (b <~ (a <~ m ;; f a) ;; g b) = (a <~ m ;; b <~ f a ;; g b).
Proof. destruct m; reflexivity. Qed.

Lemma Fn_Dim_init_Returns {E : Type} (x : Z) :
  0 <= x -> @Fn.Dim_init E x = Fn.Returns (Fn.mkDim x).
Proof.
  intros H. unfold Fn.Dim_init.
  destruct (Z.ltb_spec x 0); [lia | reflexivity].
Qed.

(** X19: [Dim(x)] is refused with a [ValueError] exactly when [x] is
    negative; on dimensions, [@] adds, never raises, is associative and
    has [Dim(0)] as unit on both sides. *)
Theorem Fn_Dim_monoid (E : Type) (x : Z) (a b c : Fn.Dim)
        (Ha : 0 <= Fn.dim a) (Hb : 0 <= Fn.dim b) (Hc : 0 <= Fn.dim c) :
  (@Fn.Dim_init E x =
   if x <? 0 then Fn.Raises (Fn.ValueError (Fn.expected_non_negative_integer x))
   else Fn.Returns (Fn.mkDim x))
  /\ @Fn.Dim_matmul E a b = Fn.Returns (Fn.mkDim (Fn.dim a + Fn.dim b))
  /\ (ab <~ @Fn.Dim_matmul E a b ;; Fn.Dim_matmul ab c)
     = (bc <~ Fn.Dim_matmul b c ;; Fn.Dim_matmul a bc)
  /\ (z <~ @Fn.Dim_init E 0 ;; Fn.Dim_matmul z a) = Fn.Returns a
  /\ (z <~ @Fn.Dim_init E 0 ;; Fn.Dim_matmul a z) = Fn.Returns a.
Proof.
  split; [reflexivity|].
  destruct a as [a], b as [b], c as [c]; simpl in *.
  unfold Fn.Dim_matmul; simpl.
  rewrite !(Fn_Dim_init_Returns (a + b)), !(Fn_Dim_init_Returns (b + c)) by lia.
  simpl. rewrite !Fn_Dim_init_Returns by lia.
  repeat split; try reflexivity; do 2 f_equal; lia.
Qed.

Lemma Fn_Dim_monoid_witness :
  0 <= Fn.dim (Fn.mkDim 3) /\ 0 <= Fn.dim (Fn.mkDim 4) /\ 0 <= Fn.dim (Fn.mkDim 0)
  /\ @Fn.Dim_matmul unit (Fn.mkDim 3) (Fn.mkDim 4) = Fn.Returns (Fn.mkDim 7).
Proof.
  split; [discriminate|]. split; [discriminate|]. split; [discriminate|].
  exact (proj1 (proj2 (Fn_Dim_monoid unit 0 (Fn.mkDim 3) (Fn.mkDim 4) (Fn.mkDim 0)
                         ltac:(discriminate) ltac:(discriminate)
                         ltac:(discriminate)))).
Defined.

Lemma string_append_assoc (a b c : string) :
  ((a ++ b) ++ c = a ++ (b ++ c))%string.
Proof. induction a as [|ch a IH]; simpl; [reflexivity | rewrite IH; reflexivity]. Qed.

Lemma Fn_then_Returns {V E : Type} (f g : Fn.Function V E) :
  Fn.dim (Fn.cod f) = Fn.dim (Fn.dom g) ->
  Fn.then_ f g =
  Fn.Returns
    (Fn.mkFunction (Fn.name f ++ " >> " ++ Fn.name g)%string (Fn.dom f) (Fn.cod g)
       (fun x => y <~ Fn.call f x ;; Fn.call g y)).
Proof.
  intros H. unfold Fn.then_. rewrite H, Z.eqb_refl. reflexivity.
Qed.

Lemma Fn_call_checked {V E : Type} (f : Fn.Function V E) (x : list V) :
  len x = Fn.dim (Fn.dom f) -> Fn.call f x = Fn.function f x.
Proof. intros H. unfold Fn.call. rewrite H, Z.eqb_refl. reflexivity. Qed.

Lemma Fn_call_refused {V E : Type} (f : Fn.Function V E) (x : list V) :
  len x <> Fn.dim (Fn.dom f) ->
  Fn.call f x =
  Fn.Raises (Fn.AxiomError (Fn.expected_input_of_length (Fn.dim (Fn.dom f)) (len x))).
Proof.
  intros H. unfold Fn.call. apply Z.eqb_neq in H. rewrite H. reflexivity.
Qed.

(** A call through a function built by [then] or [tensor] checks the
    length again before the first function does. *)
Lemma Fn_call_twice {V E : Type} (f : Fn.Function V E) (x : list V)
      (k : list V -> Fn.outcome E (list V)) (d : Fn.Dim) (n : string)
      (c : Fn.Dim) :
  d = Fn.dom f ->
  Fn.call (Fn.mkFunction n d c (fun x => y <~ Fn.call f x ;; k y)) x
  = (y <~ Fn.call f x ;; k y).
Proof.
  intros ->. unfold Fn.call at 1. cbn [Fn.dom Fn.function].
  destruct (Z.eq_dec (len x) (Fn.dim (Fn.dom f))) as [H|H].
  - rewrite H, Z.eqb_refl. reflexivity.
  - rewrite (Fn_call_refused f x H). apply Z.eqb_neq in H. rewrite H. reflexivity.
Qed.

(** X20: [then] is refused with an [AxiomError] exactly when the codomain
    of the first function and the domain of the second differ; calling
    [f >> g] is calling [f] and then [g] on what it returns, whatever the
    input; and [(f >> g) >> h] and [f >> (g >> h)] have the same name, the
    same domain and codomain and the same result or error on every input. *)
Theorem Fn_then_assoc (V E : Type) (f g h : Fn.Function V E)
        (Hfg : Fn.dim (Fn.cod f) = Fn.dim (Fn.dom g))
        (Hgh : Fn.dim (Fn.cod g) = Fn.dim (Fn.dom h)) :
  (forall a b : Fn.Function V E,
     Fn.dim (Fn.cod a) <> Fn.dim (Fn.dom b) ->
     Fn.then_ a b
     = Fn.Raises (Fn.AxiomError (Fn.does_not_compose (Fn.name a) (Fn.name b))))
  /\ exists fg gh l r,
    Fn.then_ f g = Fn.Returns fg /\ Fn.then_ g h = Fn.Returns gh
    /\ Fn.then_ fg h = Fn.Returns l /\ Fn.then_ f gh = Fn.Returns r
    /\ (forall x, Fn.call fg x = (y <~ Fn.call f x ;; Fn.call g y))
    /\ Fn.name l = Fn.name r /\ Fn.dom l = Fn.dom r /\ Fn.cod l = Fn.cod r
    /\ (forall x, Fn.call l x = Fn.call r x).
Proof.
  split.
  { intros a b Hab. unfold Fn.then_.
    destruct (Z.eqb_spec (Fn.dim (Fn.cod a)) (Fn.dim (Fn.dom b))) as [H|H];
      [contradiction|reflexivity]. }
  do 4 eexists.
  rewrite (Fn_then_Returns f g Hfg), (Fn_then_Returns g h Hgh).
  split; [reflexivity|]. split; [reflexivity|].
  rewrite !Fn_then_Returns by assumption.
  split; [reflexivity|]. split; [reflexivity|].
  cbn [Fn.name Fn.dom Fn.cod]. split; [|split; [|split; [|split]]].
  - intros x. apply Fn_call_twice. reflexivity.
  - rewrite !string_append_assoc. reflexivity.
  - reflexivity.
  - reflexivity.
  - intros x. rewrite !Fn_call_twice by reflexivity.
    rewrite Fn_bind_assoc. destruct (Fn.call f x) as [y|e]; [|reflexivity].
    cbn [Fn.bind]. symmetry. apply Fn_call_twice. reflexivity.
Qed.

Lemma Fn_then_assoc_witness :
  Fn.dim (Fn.cod Fn_copy) = Fn.dim (Fn.dom Fn_swap)
  /\ Fn.dim (Fn.cod Fn_swap) = Fn.dim (Fn.dom Fn_add)
  /\ exists l r,
       (fg <~ Fn.then_ Fn_copy Fn_swap ;; Fn.then_ fg Fn_add) = Fn.Returns l
       /\ (gh <~ Fn.then_ Fn_swap Fn_add ;; Fn.then_ Fn_copy gh) = Fn.Returns r
       /\ forall x, Fn.call l x = Fn.call r x.
Proof.
  split; [reflexivity|]. split; [reflexivity|].
  destruct (Fn_then_assoc Z unit Fn_copy Fn_swap Fn_add eq_refl eq_refl)
    as (_ & fg & gh & l & r & E1 & E2 & E3 & E4 & _ & _ & _ & _ & C).
  exists l, r. rewrite E1, E2. cbn [Fn.bind]. auto.
Defined.

(** X21: the identity is a unit of [then] on the left: [Id(f.dom) >> f]
    gives what [f] gives on every input.  On the right, [f >> Id(f.cod)]
    checks what [f] returns: it gives what [f] gives when that has the
    length of the codomain, and an [AxiomError] otherwise, which a call of
    [f] alone never raises for its output. *)
Theorem Fn_Id_unit (V E : Type) (f : Fn.Function V E) (x : list V) :
  exists i j l r,
    Fn.Id (inl (Fn.dom f)) = Fn.Returns i /\ Fn.Id (inl (Fn.cod f)) = Fn.Returns j
    /\ Fn.then_ i f = Fn.Returns l /\ Fn.then_ f j = Fn.Returns r
    /\ Fn.call l x = Fn.call f x
    /\ Fn.call r x =
       (y <~ Fn.call f x ;;
        if len y =? Fn.dim (Fn.cod f) then Fn.Returns y
        else Fn.Raises (Fn.AxiomError
                          (Fn.expected_input_of_length (Fn.dim (Fn.cod f)) (len y)))).
Proof.
  do 4 eexists. split; [reflexivity|]. split; [reflexivity|].
  rewrite !Fn_then_Returns by reflexivity.
  split; [reflexivity|]. split; [reflexivity|]. split.
  - rewrite Fn_call_twice by reflexivity.
    destruct (Z.eq_dec (len x) (Fn.dim (Fn.dom f))) as [H|H].
    + rewrite Fn_call_checked by exact H. reflexivity.
    + rewrite !Fn_call_refused by exact H. reflexivity.
  - rewrite Fn_call_twice by reflexivity.
    destruct (Fn.call f x) as [y|e]; [|reflexivity]. cbn [Fn.bind].
    unfold Fn.call. cbn [Fn.dom Fn.function].
    destruct (len y =? Fn.dim (Fn.cod f)); reflexivity.
Qed.

Lemma len_firstn_gen {A : Type} (t : list A) (n : Z) :
  0 <= n <= len t -> len (firstn (Z.to_nat n) t) = n.
Proof. unfold len. intros H. rewrite length_firstn. lia. Qed.

Lemma len_skipn_gen {A : Type} (t : list A) (n : Z) :
  0 <= n <= len t -> len (skipn (Z.to_nat n) t) = len t - n.
Proof. unfold len. intros H. rewrite length_skipn. lia. Qed.

Lemma Fn_tensor_Returns {V E : Type} (f g : Fn.Function V E) :
  0 <= Fn.dim (Fn.dom f) + Fn.dim (Fn.dom g) ->
  0 <= Fn.dim (Fn.cod f) + Fn.dim (Fn.cod g) ->
  Fn.tensor f g =
  Fn.Returns
    (Fn.mkFunction (Fn.name f ++ " @ " ++ Fn.name g)%string
       (Fn.mkDim (Fn.dim (Fn.dom f) + Fn.dim (Fn.dom g)))
       (Fn.mkDim (Fn.dim (Fn.cod f) + Fn.dim (Fn.cod g)))
       (fun x =>
          a <~ Fn.call f (slice None (Some (Fn.dim (Fn.dom f))) x) ;;
          b <~ Fn.call g (slice (Some (Fn.dim (Fn.dom f))) None x) ;;
          Fn.Returns (a ++ b))).
Proof.
  intros H1 H2. unfold Fn.tensor, Fn.Dim_matmul.
  rewrite !Fn_Dim_init_Returns by assumption. reflexivity.
Qed.

(** X22: [f @ g] takes the concatenation of an input of [f] and an input
    of [g] to the concatenation of what [f] and [g] return, [f] being
    called first; its domain and codomain are the sums of those of [f] and
    [g], and an input of another length is refused with an [AxiomError]
    before [f] and [g] are called. *)
Theorem Fn_tensor_call (V E : Type) (f g : Fn.Function V E) (x y z : list V)
        (Hx : len x = Fn.dim (Fn.dom f)) (Hy : len y = Fn.dim (Fn.dom g))
        (Hc : 0 <= Fn.dim (Fn.cod f) + Fn.dim (Fn.cod g))
        (Hz : len z <> Fn.dim (Fn.dom f) + Fn.dim (Fn.dom g)) :
  exists t,
    Fn.tensor f g = Fn.Returns t
    /\ Fn.dim (Fn.dom t) = Fn.dim (Fn.dom f) + Fn.dim (Fn.dom g)
    /\ Fn.dim (Fn.cod t) = Fn.dim (Fn.cod f) + Fn.dim (Fn.cod g)
    /\ Fn.call t (x ++ y) =
       (a <~ Fn.function f x ;; b <~ Fn.function g y ;; Fn.Returns (a ++ b))
    /\ Fn.call t z =
       Fn.Raises (Fn.AxiomError
                    (Fn.expected_input_of_length
                       (Fn.dim (Fn.dom f) + Fn.dim (Fn.dom g)) (len z))).
Proof.
  pose proof (len_nonneg x); pose proof (len_nonneg y).
  eexists. rewrite Fn_tensor_Returns by lia.
  split; [reflexivity|]. split; [reflexivity|]. split; [reflexivity|]. split.
  - rewrite Fn_call_checked by (cbn [Fn.dom Fn.dim]; rewrite len_app; lia).
    cbn [Fn.function]. rewrite <- Hx, slice_prefix, slice_suffix.
    rewrite !Fn_call_checked by assumption. reflexivity.
  - rewrite Fn_call_refused by exact Hz. reflexivity.
Qed.

Lemma Fn_tensor_call_witness :
  len [1; 2] = Fn.dim (Fn.dom Fn_add) /\ len [3] = Fn.dim (Fn.dom Fn_copy)
  /\ 0 <= Fn.dim (Fn.cod Fn_add) + Fn.dim (Fn.cod Fn_copy)
  /\ len [7] <> Fn.dim (Fn.dom Fn_add) + Fn.dim (Fn.dom Fn_copy)
  /\ exists t, Fn.tensor Fn_add Fn_copy = Fn.Returns t
               /\ Fn.call t ([1; 2] ++ [3]) = Fn.Returns [3; 3; 3].
Proof.
  split; [reflexivity|]. split; [reflexivity|]. split; [discriminate|].
  split; [discriminate|].
  destruct (Fn_tensor_call Z unit Fn_add Fn_copy [1; 2] [3] [7] eq_refl eq_refl
              ltac:(discriminate) ltac:(discriminate))
    as (t & E & _ & _ & C & _).
  exists t. split; [exact E | exact C].
Defined.

Lemma Fn_call_respects {V E : Type} (f : Fn.Function V E) (x : list V) :
  Fn_respects f -> len x = Fn.dim (Fn.dom f) ->
  exists y, Fn.call f x = Fn.Returns y /\ len y = Fn.dim (Fn.cod f).
Proof.
  intros R H. rewrite Fn_call_checked by exact H. apply R, H.
Qed.

(** X23: the interchange law on functions that return lists of the length
    of their codomain: on every input of the length of its domain,
    [f @ g >> f' @ g'] returns what [(f >> f') @ (g >> g')] returns, the
    concatenation of [f'(f(x1))] and [g'(g(x2))] for the two parts [x1] and
    [x2] of the input. *)
Theorem Fn_interchange (V E : Type) (f g f' g' : Fn.Function V E) (x1 x2 : list V)
        (Rf : Fn_respects f) (Rg : Fn_respects g)
        (Rf' : Fn_respects f') (Rg' : Fn_respects g')
        (Hff : Fn.dim (Fn.cod f) = Fn.dim (Fn.dom f'))
        (Hgg : Fn.dim (Fn.cod g) = Fn.dim (Fn.dom g'))
        (H1 : len x1 = Fn.dim (Fn.dom f)) (H2 : len x2 = Fn.dim (Fn.dom g)) :
  exists l r y1 y2 z1 z2,
    (a <~ Fn.tensor f g ;; b <~ Fn.tensor f' g' ;; Fn.then_ a b) = Fn.Returns l
    /\ (a <~ Fn.then_ f f' ;; b <~ Fn.then_ g g' ;; Fn.tensor a b) = Fn.Returns r
    /\ Fn.function f x1 = Fn.Returns y1 /\ Fn.function f' y1 = Fn.Returns z1
    /\ Fn.function g x2 = Fn.Returns y2 /\ Fn.function g' y2 = Fn.Returns z2
    /\ Fn.call l (x1 ++ x2) = Fn.Returns (z1 ++ z2)
    /\ Fn.call r (x1 ++ x2) = Fn.Returns (z1 ++ z2).
Proof.
  pose proof (len_nonneg x1); pose proof (len_nonneg x2).
  destruct (Rf x1 H1) as (y1 & Ef & L1). destruct (Rg x2 H2) as (y2 & Eg & L2).
  pose proof (len_nonneg y1); pose proof (len_nonneg y2).
  destruct (Rf' y1 ltac:(lia)) as (z1 & Ef' & M1).
  destruct (Rg' y2 ltac:(lia)) as (z2 & Eg' & M2).
  pose proof (len_nonneg z1); pose proof (len_nonneg z2).
  do 2 eexists. exists y1, y2, z1, z2.
  rewrite !Fn_tensor_Returns by lia. cbn [Fn.bind].
  rewrite !Fn_then_Returns by (cbn [Fn.cod Fn.dom Fn.dim]; lia). cbn [Fn.bind].
  rewrite Fn_tensor_Returns by (cbn [Fn.cod Fn.dom Fn.dim]; lia).
  split; [reflexivity|]. split; [reflexivity|].
  repeat (split; [assumption|]). split.
  - rewrite Fn_call_twice by reflexivity.
    rewrite Fn_call_checked by (cbn [Fn.dom Fn.dim]; rewrite len_app; lia).
    cbn [Fn.function]. rewrite <- H1, slice_prefix, slice_suffix.
    rewrite (Fn_call_checked f), Ef by assumption. cbn [Fn.bind].
    rewrite (Fn_call_checked g), Eg by assumption. cbn [Fn.bind].
    rewrite Fn_call_checked by (cbn [Fn.dom Fn.dim]; rewrite len_app; lia).
    cbn [Fn.function]. rewrite <- Hff, <- L1, slice_prefix, slice_suffix.
    rewrite (Fn_call_checked f'), Ef' by lia. cbn [Fn.bind].
    rewrite (Fn_call_checked g'), Eg' by lia. reflexivity.
  - rewrite Fn_call_checked by (cbn [Fn.dom Fn.dim]; rewrite len_app; lia).
    cbn [Fn.function Fn.dom Fn.dim]. rewrite <- H1, slice_prefix, slice_suffix.
    rewrite !Fn_call_twice by reflexivity.
    rewrite (Fn_call_checked f), Ef by assumption. cbn [Fn.bind].
    rewrite (Fn_call_checked f'), Ef' by lia. cbn [Fn.bind].
    rewrite (Fn_call_checked g), Eg by assumption. cbn [Fn.bind].
    rewrite (Fn_call_checked g'), Eg' by lia. reflexivity.
Qed.

Lemma Fn_respects_copy : Fn_respects Fn_copy.
Proof.
  intros x H. eexists; split; [reflexivity|].
  cbn [Fn_copy Fn.dom Fn.cod Fn.dim] in *. rewrite len_app. lia.
Qed.

Lemma Fn_respects_add : Fn_respects Fn_add.
Proof. intros x H. eexists; split; reflexivity. Qed.

Lemma Fn_respects_swap : Fn_respects Fn_swap.
Proof.
  intros x H. eexists; split; [reflexivity|].
  cbn [Fn_swap Fn.dom Fn.cod Fn.dim] in *. unfold len in *.
  rewrite length_rev. exact H.
Qed.

Lemma Fn_interchange_witness :
  Fn_respects Fn_copy /\ Fn_respects Fn_add /\ Fn_respects Fn_swap
  /\ Fn.dim (Fn.cod Fn_copy) = Fn.dim (Fn.dom Fn_add)
  /\ Fn.dim (Fn.cod Fn_add) = Fn.dim (Fn.dom Fn_copy)
  /\ len [123] = Fn.dim (Fn.dom Fn_copy) /\ len [25; 1] = Fn.dim (Fn.dom Fn_add)
  /\ exists l r,
       (a <~ Fn.tensor Fn_copy Fn_add ;; b <~ Fn.tensor Fn_add Fn_copy ;;
        Fn.then_ a b) = Fn.Returns l
       /\ (a <~ Fn.then_ Fn_copy Fn_add ;; b <~ Fn.then_ Fn_add Fn_copy ;;
           Fn.tensor a b) = Fn.Returns r
       /\ Fn.call l [123; 25; 1] = Fn.call r [123; 25; 1].
Proof.
  split; [exact Fn_respects_copy|]. split; [exact Fn_respects_add|].
  split; [exact Fn_respects_swap|].
  split; [reflexivity|]. split; [reflexivity|]. split; [reflexivity|].
  split; [reflexivity|].
  destruct (Fn_interchange Z unit Fn_copy Fn_add Fn_add Fn_copy [123] [25; 1]
              Fn_respects_copy Fn_respects_add Fn_respects_add Fn_respects_copy
              eq_refl eq_refl eq_refl eq_refl)
    as (l & r & y1 & y2 & z1 & z2 & El & Er & _ & _ & _ & _ & Cl & Cr).
  exists l, r. split; [exact El|]. split; [exact Er|].
  change [123; 25; 1] with ([123] ++ [25; 1]). rewrite Cl, Cr. reflexivity.
Defined.

(** ** Functors into functions on lists *)

Lemma weight_app {K : Type} (w : K -> Z) (s t : list K) :
  weight w (s ++ t) = weight w s + weight w t.
Proof. induction s as [|k s IH]; simpl; [reflexivity | rewrite IH; lia]. Qed.

Lemma weight_nonneg {K : Type} (w : K -> Z) (t : list K) :
  (forall k, 0 <= w k) -> 0 <= weight w t.
Proof.
  intros H. induction t as [|k t IH]; simpl; [lia | specialize (H k); lia].
Qed.

Lemma Fn_mapM_ob {E K : Type} (ob : K -> Fn.outcome E Fn.Dim) (w : K -> Z) (t : list K) :
  (forall k, ob k = Fn.Returns (Fn.mkDim (w k))) ->
  Fn_mapM ob t = Fn.Returns (map (fun k => Fn.mkDim (w k)) t).
Proof.
  intros H. induction t as [|k t IH]; simpl; [reflexivity|].
  rewrite H, IH. reflexivity.
Qed.

Lemma Dim_sum_weight {E K : Type} (w : K -> Z) (t : list K) (start : Z) :
  (forall k, 0 <= w k) -> 0 <= start ->
  @Dim_sum E (map (fun k => Fn.mkDim (w k)) t) (Fn.mkDim start)
  = Fn.Returns (Fn.mkDim (start + weight w t)).
Proof.
  intros H. revert start. unfold Dim_sum.
  induction t as [|k t IH]; intros start Hs; simpl.
  - do 2 f_equal. lia.
  - unfold Fn.Dim_matmul at 2. cbn [Fn.dim].
    rewrite Fn_Dim_init_Returns by (specialize (H k); lia).
    rewrite IH by (specialize (H k); lia). do 2 f_equal. lia.
Qed.

Lemma PythonFunctor_Ty_weight {E K : Type} (ob : K -> Fn.outcome E Fn.Dim)
      (w : K -> Z) (t : list K) :
  (forall k, ob k = Fn.Returns (Fn.mkDim (w k))) -> (forall k, 0 <= w k) ->
  PythonFunctor_Ty E K ob t = Fn.Returns (Fn.mkDim (weight w t)).
Proof.
  intros Hob Hw. unfold PythonFunctor_Ty.
  rewrite (Fn_mapM_ob ob w t Hob). cbn [Fn.bind].
  rewrite Fn_Dim_init_Returns by lia. cbn [Fn.bind].
  rewrite Dim_sum_weight by (auto; lia). reflexivity.
Qed.

(** X24: a functor into functions on lists, on objects that it sends to
    dimensions, sends a type to the sum of the dimensions of its atomic
    types, the unit to [Dim(0)] and a tensor of types to the [@] of their
    images. *)
Theorem PythonFunctor_monoidal_on_types (E K : Type)
        (ob : K -> Fn.outcome E Fn.Dim) (w : K -> Z) (s t : list K)
        (Hob : forall k, ob k = Fn.Returns (Fn.mkDim (w k)))
        (Hw : forall k, 0 <= w k) :
  PythonFunctor_Ty E K ob t = Fn.Returns (Fn.mkDim (weight w t))
  /\ PythonFunctor_Ty E K ob [] = Fn.Returns (Fn.mkDim 0)
  /\ PythonFunctor_Ty E K ob (s ++ t)
     = (a <~ PythonFunctor_Ty E K ob s ;; b <~ PythonFunctor_Ty E K ob t ;;
        Fn.Dim_matmul a b).
Proof.
  rewrite !(PythonFunctor_Ty_weight ob w) by assumption.
  split; [reflexivity|]. split; [reflexivity|]. cbn [Fn.bind].
  unfold Fn.Dim_matmul. cbn [Fn.dim].
  pose proof (weight_nonneg w s Hw); pose proof (weight_nonneg w t Hw).
  rewrite Fn_Dim_init_Returns by lia. rewrite weight_app. reflexivity.
Qed.

Lemma PythonFunctor_monoidal_on_types_witness :
  (forall k : bool, @Fn.Returns unit _ (Fn.mkDim (if k then 1 else 2))
                    = Fn.Returns (Fn.mkDim (if k then 1 else 2)))
  /\ (forall k : bool, 0 <= (if k then 1 else 2))
  /\ PythonFunctor_Ty unit bool (fun k => Fn.Returns (Fn.mkDim (if k then 1 else 2)))
       [true; false; true] = Fn.Returns (Fn.mkDim 4).
Proof.
  assert (Hw : forall k : bool, 0 <= (if k then 1 else 2))
    by (intros [|]; discriminate).
  split; [intros; reflexivity|]. split; [exact Hw|].
  exact (proj1 (PythonFunctor_monoidal_on_types unit bool
                  (fun k => Fn.Returns (Fn.mkDim (if k then 1 else 2)))
                  (fun k : bool => if k then 1 else 2) [] [true; false; true]
                  (fun k => eq_refl) Hw)).
Defined.

Lemma PythonFunctor_step_typed (V E K B : Type) (box_dom box_cod : B -> list K)
      (ob : K -> Fn.outcome E Fn.Dim) (ar : B -> Fn.outcome E (Fn.Function V E))
      (w : K -> Z) (result fb : Fn.Function V E) (b : B) (l r : list K) :
  (forall k, ob k = Fn.Returns (Fn.mkDim (w k))) -> (forall k, 0 <= w k) ->
  ar b = Fn.Returns fb ->
  Fn.dim (Fn.dom fb) = weight w (box_dom b) ->
  Fn.dim (Fn.cod fb) = weight w (box_cod b) ->
  Fn.dim (Fn.cod result) = weight w (l ++ box_dom b ++ r) ->
  exists result',
    PythonFunctor_step V E K B box_dom box_cod ob ar
      (l ++ box_dom b ++ r, result) b (len l)
    = Fn.Returns (l ++ box_cod b ++ r, result')
    /\ Fn.dom result' = Fn.dom result
    /\ Fn.dim (Fn.cod result') = weight w (l ++ box_cod b ++ r).
Proof.
  intros Hob Hw Hb Hd Hc Hr.
  pose proof (weight_nonneg w l Hw); pose proof (weight_nonneg w r Hw).
  pose proof (weight_nonneg w (box_dom b) Hw).
  pose proof (weight_nonneg w (box_cod b) Hw).
  unfold PythonFunctor_step. cbn [fst snd].
  rewrite slice_prefix.
  replace (l ++ box_dom b ++ r) with ((l ++ box_dom b) ++ r)
    by (rewrite <- app_assoc; reflexivity).
  replace (len l + len (box_dom b)) with (len (l ++ box_dom b))
    by (rewrite len_app; reflexivity).
  rewrite slice_suffix.
  rewrite !(PythonFunctor_Ty_weight ob w) by assumption. cbn [Fn.bind Fn.Id].
  rewrite Hb. cbn [Fn.bind].
  rewrite Fn_tensor_Returns by (cbn [Fn.dom Fn.cod Fn.dim]; lia). cbn [Fn.bind].
  rewrite Fn_tensor_Returns by (cbn [Fn.dom Fn.cod Fn.dim]; lia). cbn [Fn.bind].
  rewrite Fn_then_Returns
    by (cbn [Fn.dom Fn.cod Fn.dim]; rewrite Hr, !weight_app; lia).
  cbn [Fn.bind]. eexists; split; [reflexivity|].
  cbn [Fn.dom Fn.cod Fn.dim]. split; [reflexivity|].
  rewrite !weight_app. lia.
Qed.

Lemma PythonFunctor_loop_typed (V E K B : Type) (box_dom box_cod : B -> list K)
      (ob : K -> Fn.outcome E Fn.Dim) (ar : B -> Fn.outcome E (Fn.Function V E))
      (w : K -> Z) (boxes_offsets : list (B * Z)) (cod : list K) :
  (forall k, ob k = Fn.Returns (Fn.mkDim (w k))) -> (forall k, 0 <= w k) ->
  (forall b off, In (b, off) boxes_offsets ->
     exists fb, ar b = Fn.Returns fb
                /\ Fn.dim (Fn.dom fb) = weight w (box_dom b)
                /\ Fn.dim (Fn.cod fb) = weight w (box_cod b)) ->
  forall (scan : list K) (result : Fn.Function V E),
    scans K B box_dom box_cod scan boxes_offsets cod ->
    Fn.dim (Fn.cod result) = weight w scan ->
    exists result',
      PythonFunctor_loop V E K B box_dom box_cod ob ar (scan, result) boxes_offsets
      = Fn.Returns (cod, result')
      /\ Fn.dom result' = Fn.dom result
      /\ Fn.dim (Fn.cod result') = weight w cod.
Proof.
  intros Hob Hw. induction boxes_offsets as [|[b off] rest IH];
    intros Har scan result Hs Hr.
  - simpl in Hs; subst cod. exists result. auto.
  - destruct Hs as (l & r & -> & <- & Hs).
    destruct (Har b (len l) (or_introl eq_refl)) as (fb & Hb & Hd & Hc).
    destruct (PythonFunctor_step_typed V E K B box_dom box_cod ob ar w result fb
                b l r Hob Hw Hb Hd Hc Hr) as (result1 & E1 & D1 & C1).
    cbn [PythonFunctor_loop]. rewrite E1. cbn [Fn.bind].
    destruct (IH (fun b' off' H => Har b' off' (or_intror H)) _ result1 Hs C1)
      as (result' & E2 & D2 & C2).
    exists result'. rewrite E2, D2, D1. auto.
Qed.

(** X25: on a diagram whose boxes, at their offsets, go from one type to
    the next, a functor that sends every box to a function between the
    images of its domain and codomain is defined, and the image of the
    diagram is a function from the image of its domain to the image of its
    codomain; the image of a diagram without boxes is the identity. *)
Theorem PythonFunctor_on_diagram (V E K B : Type) (box_dom box_cod : B -> list K)
        (ob : K -> Fn.outcome E Fn.Dim) (ar : B -> Fn.outcome E (Fn.Function V E))
        (w : K -> Z) (dom cod : list K) (boxes_offsets : list (B * Z))
        (Hob : forall k, ob k = Fn.Returns (Fn.mkDim (w k)))
        (Hw : forall k, 0 <= w k)
        (Har : forall b off, In (b, off) boxes_offsets ->
                 exists fb, ar b = Fn.Returns fb
                            /\ Fn.dim (Fn.dom fb) = weight w (box_dom b)
                            /\ Fn.dim (Fn.cod fb) = weight w (box_cod b))
        (Hs : scans K B box_dom box_cod dom boxes_offsets cod) :
  (exists h, PythonFunctor_Diagram V E K B box_dom box_cod ob ar dom boxes_offsets
             = Fn.Returns h
             /\ Fn.dom h = Fn.mkDim (weight w dom)
             /\ Fn.dim (Fn.cod h) = weight w cod)
  /\ PythonFunctor_Diagram V E K B box_dom box_cod ob ar dom []
     = Fn.Id (inl (Fn.mkDim (weight w dom))).
Proof.
  unfold PythonFunctor_Diagram.
  rewrite (PythonFunctor_Ty_weight ob w) by assumption. cbn [Fn.bind Fn.Id].
  split; [|reflexivity].
  destruct (PythonFunctor_loop_typed V E K B box_dom box_cod ob ar w
              boxes_offsets cod Hob Hw Har dom
              (Fn.mkFunction ("Id(" ++ Fn.Dim_repr (Fn.mkDim (weight w dom)) ++ ")")
                 (Fn.mkDim (weight w dom)) (Fn.mkDim (weight w dom))
                 (fun x => Fn.Returns x)) Hs eq_refl)
    as (h & E1 & D & C).
  rewrite E1. cbn [Fn.bind snd]. exists h. auto.
Qed.

Lemma PythonFunctor_on_diagram_witness :
  scans bool bool (fun b => if b then [true] else [false])
        (fun b => if b then [false] else [true])
        [true] [(true, 0); (false, 0)] [true]
  /\ exists h,
       PythonFunctor_Diagram Z unit bool bool
         (fun b => if b then [true] else [false])
         (fun b => if b then [false] else [true])
         (fun k => Fn.Returns (Fn.mkDim (if k then 1 else 2)))
         (fun b => Fn.Returns (if b then Fn_copy else Fn_add))
         [true] [(true, 0); (false, 0)] = Fn.Returns h
       /\ Fn.dim (Fn.cod h) = 1.
Proof.
  assert (Hs : scans bool bool (fun b => if b then [true] else [false])
                     (fun b => if b then [false] else [true])
                     [true] [(true, 0); (false, 0)] [true]).
  { exists [], []. split; [reflexivity|]. split; [reflexivity|].
    exists [], []. split; [reflexivity|]. split; reflexivity. }
  split; [exact Hs|].
  destruct (PythonFunctor_on_diagram Z unit bool bool
              (fun b => if b then [true] else [false])
              (fun b => if b then [false] else [true])
              (fun k => Fn.Returns (Fn.mkDim (if k then 1 else 2)))
              (fun b => Fn.Returns (if b then Fn_copy else Fn_add))
              (fun k : bool => if k then 1 else 2)
              [true] [true] [(true, 0); (false, 0)]
              (fun k => eq_refl)
              (fun k => match k with true => ltac:(discriminate)
                                | false => ltac:(discriminate) end)
              (fun b off _ =>
                 match b with
                 | true => ex_intro _ Fn_copy (conj eq_refl (conj eq_refl eq_refl))
                 | false => ex_intro _ Fn_add (conj eq_refl (conj eq_refl eq_refl))
                 end)
              Hs) as ((h & E & _ & C) & _).
  exists h. split; [exact E | exact C].
Defined.

(** ** Printing objects, and objects as trees *)

Lemma str_times_succ (n : Z) (s : string) :
  0 <= n -> str_times (n + 1) s = (s ++ str_times n s)%string.
Proof.
  intros H. unfold str_times.
  replace (Z.to_nat (n + 1)) with (S (Z.to_nat n)) by lia. reflexivity.
Qed.

Lemma str_times_comm (n : nat) (s : string) :
  (s ++ Nat.iter n (fun acc => s ++ acc) "" = Nat.iter n (fun acc => s ++ acc) "" ++ s)%string.
Proof.
  induction n as [|n IH]; simpl.
  - induction s as [|c s IHs]; simpl; [reflexivity | rewrite IHs; reflexivity].
  - rewrite IH at 1. rewrite string_append_assoc. reflexivity.
Qed.

Lemma str_times_snoc (n : Z) (s : string) :
  0 <= n -> str_times (n + 1) s = (str_times n s ++ s)%string.
Proof.
  intros H. rewrite str_times_succ by exact H. apply str_times_comm.
Qed.

(** X26: an object prints as its name followed by one [.l] for each left
    adjoint taken, or one [.r] for each right adjoint: a further left
    adjoint of an object of winding [z <= 0] adds [.l] at the end, a
    further right adjoint of an object of winding [z >= 0] adds [.r], and a
    generator prints as its name. *)
Theorem Ob_str_adjoints (x : Ob) (n : nat) (name : string) :
  Ob_str (mkOb name 0) = (name ++ "")%string
  /\ Ob_str (Nat.iter n Ob_l (mkOb name 0)) = (name ++ str_times (Z.of_nat n) ".l")%string
  /\ Ob_str (Nat.iter n Ob_r (mkOb name 0)) = (name ++ str_times (Z.of_nat n) ".r")%string
  /\ (if Ob_z x <=? 0 then Ob_str (Ob_l x) = (Ob_str x ++ ".l")%string
      else Ob_str (Ob_r x) = (Ob_str x ++ ".r")%string)
  /\ (if 0 <=? Ob_z x then Ob_str (Ob_r x) = (Ob_str x ++ ".r")%string
      else Ob_str (Ob_l x) = (Ob_str x ++ ".l")%string).
Proof.
  assert (L : forall y, Ob_z y <= 0 -> Ob_str (Ob_l y) = (Ob_str y ++ ".l")%string).
  { intros [nm z] H; unfold Ob_str, Ob_l; cbn [Ob_name Ob_z] in *.
    assert (E1 : (z - 1 <? 0) = true) by (apply Z.ltb_lt; lia). rewrite E1.
    replace (- (z - 1)) with (- z + 1) by lia.
    rewrite str_times_snoc, <- string_append_assoc by lia.
    destruct (Z.ltb_spec z 0); [reflexivity|].
    replace z with 0 by lia. reflexivity. }
  assert (R : forall y, 0 <= Ob_z y -> Ob_str (Ob_r y) = (Ob_str y ++ ".r")%string).
  { intros [nm z] H; unfold Ob_str, Ob_r; cbn [Ob_name Ob_z] in *.
    assert (E1 : (z + 1 <? 0) = false) by (apply Z.ltb_ge; lia).
    assert (E2 : (z <? 0) = false) by (apply Z.ltb_ge; lia). rewrite E1, E2.
    rewrite str_times_snoc, <- string_append_assoc by lia. reflexivity. }
  refine (conj eq_refl (conj _ (conj _ (conj _ _)))).
  - rewrite Ob_iter_l. unfold Ob_str; cbn [Ob_name Ob_z].
    destruct n as [|n]; [reflexivity|].
    assert (E : (0 - Z.of_nat (S n) <? 0) = true) by (apply Z.ltb_lt; lia).
    rewrite E. replace (- (0 - Z.of_nat (S n))) with (Z.of_nat (S n)) by lia.
    reflexivity.
  - rewrite Ob_iter_r. unfold Ob_str; cbn [Ob_name Ob_z].
    assert (E : (0 + Z.of_nat n <? 0) = false) by (apply Z.ltb_ge; lia).
    rewrite E. reflexivity.
  - destruct (Z.leb_spec (Ob_z x) 0); [apply L; assumption | apply R; lia].
  - destruct (Z.leb_spec 0 (Ob_z x)); [apply R; assumption | apply L; lia].
Qed.

Lemma tree_get_set_same (key : string) (v : tree_value) (t : tree) :
  tree_get key (tree_set key v t) = Some v.
Proof.
  induction t as [|[k w] t IH]; simpl.
  - rewrite String.eqb_refl. reflexivity.
  - destruct (String.eqb k key) eqn:E; simpl; rewrite E; [reflexivity | exact IH].
Qed.

Lemma tree_get_set_other (key key' : string) (v : tree_value) (t : tree) :
  key <> key' -> tree_get key' (tree_set key v t) = tree_get key' t.
Proof.
  intros H. induction t as [|[k w] t IH]; simpl.
  - destruct (String.eqb key key') eqn:E; [apply String.eqb_eq in E; contradiction|].
    reflexivity.
  - destruct (String.eqb k key) eqn:E; simpl.
    + apply String.eqb_eq in E; subst k.
      destruct (String.eqb key key') eqn:E'; [apply String.eqb_eq in E'; contradiction|].
      reflexivity.
    + destruct (String.eqb k key'); [reflexivity | exact IH].
Qed.

(** X27: an object comes back from its tree: when the tree of the base
    category holds the name of the object and no winding number,
    [from_tree(to_tree(x))] has the name and the winding number of [x]; the
    tree holds the key [z] exactly when the winding number is not [0]. *)
Theorem Ob_tree_round_trip (super_to_tree : Ob -> tree) (x : Ob)
        (Hname : tree_get "name" (super_to_tree x) = Some (VStr (Ob_name x)))
        (Hz : tree_get "z" (super_to_tree x) = None) :
  Ob_from_tree (Ob_to_tree super_to_tree x) = inr (VStr (Ob_name x), Ob_z x)
  /\ (tree_get "z" (Ob_to_tree super_to_tree x) = None <-> Ob_z x = 0)
  /\ tree_get "name" (Ob_to_tree super_to_tree x) = Some (VStr (Ob_name x)).
Proof.
  unfold Ob_from_tree, Ob_to_tree. destruct (Z.eqb_spec (Ob_z x) 0) as [E|E]; simpl.
  - rewrite Hname, Hz, E. repeat split; auto.
  - rewrite tree_get_set_other, Hname, tree_get_set_same by discriminate.
    repeat split; auto; [discriminate | contradiction].
Qed.

Lemma Ob_tree_round_trip_witness :
  tree_get "name" [("factory"%string, VStr "rigid.Ob"); ("name"%string, VStr (Ob_name (Ob_r ob_n)))]
  = Some (VStr (Ob_name (Ob_r ob_n)))
  /\ tree_get "z" [("factory"%string, VStr "rigid.Ob"); ("name"%string, VStr (Ob_name (Ob_r ob_n)))]
     = None
  /\ Ob_from_tree
       (Ob_to_tree (fun o => [("factory"%string, VStr "rigid.Ob"); ("name"%string, VStr (Ob_name o))])
          (Ob_r ob_n))
     = inr (VStr "n", 1).
Proof.
  split; [reflexivity|]. split; [reflexivity|].
  exact (proj1 (Ob_tree_round_trip
                  (fun o => [("factory"%string, VStr "rigid.Ob"); ("name"%string, VStr (Ob_name o))])
                  (Ob_r ob_n) eq_refl eq_refl)).
Defined.
